(** * Parallel inverted index (tema1.cpp): model and verified properties

    The program indexes the words of a list of text files.  Mapper threads
    pull file indices from a shared queue, clean and aggregate the words of
    each file locally and merge them into 26 lock-protected shard tables;
    after a barrier, reducer threads sort each shard and write one artifact
    per letter.

    Conventions of the embedding:
    - [int] values are modelled in [Z].  The arithmetic on them is
      [file_id + 1] with [0 <= file_id < nr_files],
      [reducer_id * 26 / num_reducers] and the increment of the per-word
      counter of the Local Aggregate, a value the program never reads; the
      theorems about the ranges and about the counter state the bounds
      within which no overflow can occur.
    - [std::string] is [string] (a list of 8-bit characters),
      [std::vector] is [list], [std::unordered_map] is stdpp's [gmap].
      Where the program traverses an [unordered_map], whose order is
      unspecified, the properties are proved for every order.
    - The threads are modelled by an interleaving semantics ([step]): a
      critical section protected by a mutex is one atomic transition, and
      the work a thread does on its own data between two critical sections
      is part of a transition of that thread.  Reading the file system is
      a parameter: the manifest gives, for every file index, whether the
      file opens and which tokens it yields.
    - The barrier lets the reducers start when every mapper has arrived
      ([map_phase_done]); the reducers then read shards that no thread
      writes any more, and write distinct files. *)

From Stdlib Require Import ZArith Ascii String Lia.

From stdpp Require Import gmap strings list fin_maps sorting list_numbers pretty.

Local Open Scope Z_scope.

Definition NUM_LETTERS : Z := 26.

(** ** Data model *)

Record WordEntry := mkWordEntry {
  word : string;
  file_ids : list Z
}.

#[global] Instance WordEntry_eq_dec : EqDecision WordEntry.
Proof. solve_decision. Defined.

(** [ResultData::table]; the mutex of a shard is represented by the
    atomicity of the transitions that touch the table. *)
Abbreviation table_t := (gmap string WordEntry).

(** [ThreadData::results], an array of [NUM_LETTERS] shards. *)
Abbreviation results_t := (list (gmap string WordEntry)).

(** ** Tokenizer: [clean_word] *)

(** [std::isalpha] in the default "C" locale. *)
Definition isalpha (c : ascii) : bool :=
  let n := N_of_ascii c in
  ((65 <=? n) && (n <=? 90) || (97 <=? n) && (n <=? 122))%N.

(** [::tolower] in the default "C" locale. *)
Definition tolower (c : ascii) : ascii :=
  let n := N_of_ascii c in
  if ((65 <=? n) && (n <=? 90))%N then ascii_of_N (n + 32) else c.

(** [word.erase(std::remove_if(..., !isalpha), word.end())] *)
Fixpoint erase_non_alpha (s : string) : string :=
  match s with
  | EmptyString => EmptyString
  | String c s' =>
      if negb (isalpha c) then erase_non_alpha s'
      else String c (erase_non_alpha s')
  end.

(** [std::transform(..., ::tolower)] *)
Fixpoint transform_tolower (s : string) : string :=
  match s with
  | EmptyString => EmptyString
  | String c s' => String (tolower c) (transform_tolower s')
  end.

Definition clean_word (w : string) : string :=
  transform_tolower (erase_non_alpha w).

(** [word[0] - 'a'] on a non-empty word; both characters are promoted to
    [int] before the subtraction. *)
Definition letter_index (w : string) : Z :=
  match w with
  | EmptyString => -97
  | String c _ => Z.of_N (N_of_ascii c) - 97
  end.

(** ** Shard table: [add_table] *)

(** [std::lower_bound] on an ascending vector: the position of the first
    element that is not less than [v] ([length l] stands for [end()]). *)
Fixpoint lower_bound (l : list Z) (v : Z) : nat :=
  match l with
  | [] => 0%nat
  | x :: l' => if x <? v then S (lower_bound l' v) else 0%nat
  end.

(** [std::vector::insert(it, x)] *)
Definition vector_insert (l : list Z) (it : nat) (x : Z) : list Z :=
  take it l ++ x :: drop it l.

(** The body of [add_table] between [pthread_mutex_lock] and
    [pthread_mutex_unlock]. *)
Definition add_table (table : table_t) (w : string) (file_id : Z) : table_t :=
  match table !! w with
  | None => <[w := mkWordEntry w [file_id + 1]]> table
  | Some entry =>
      let file_index := file_id + 1 in
      let it := lower_bound (file_ids entry) file_index in
      match file_ids entry !! it with
      | Some x =>
          if bool_decide (x ≠ file_index)
          then <[w := mkWordEntry (word entry)
                        (vector_insert (file_ids entry) it file_index)]> table
          else table
      | None =>
          <[w := mkWordEntry (word entry)
                   (vector_insert (file_ids entry) it file_index)]> table
      end
  end.

(** ** Mapper: the Local Aggregate of one file *)

(** [std::unordered_map<int, std::unordered_map<std::string, int>>] *)
Abbreviation local_t := (gmap Z (gmap string Z)).

(** [local_results[letter_index][word]++]; [operator[]] default-constructs
    a missing bucket and a missing counter.  The counter is an [int],
    modelled in [Z]: it is incremented once per token, so it cannot
    overflow for a file with fewer than [2^31] tokens.  The counter is
    never read by the program. *)
Definition count_word (lr : local_t) (li : Z) (w : string) : local_t :=
  let bucket := default ∅ (lr !! li) in
  <[li := <[w := default 0 (bucket !! w) + 1]> bucket]> lr.

(** One iteration of [while (file >> word)]. *)
Definition read_word (lr : local_t) (raw : string) : local_t :=
  let w := clean_word raw in
  if bool_decide (w ≠ EmptyString) then
    let li := letter_index w in
    if bool_decide (0 ≤ li ∧ li < NUM_LETTERS) then count_word lr li w
    else lr
  else lr.

(** The whole loop over the whitespace-delimited tokens of a file. *)
Definition read_words (tokens : list string) : local_t :=
  foldl read_word ∅ tokens.

(** The [add_table] calls issued by the two nested loops over
    [local_results], as pairs (letter_index, word), in the iteration order
    of the model's maps. *)
Definition bucket_calls (lr : local_t) : list (Z * string) :=
  map_to_list lr ≫= λ b, (λ e, (b.1, e.1)) <$> map_to_list b.2.

(** ** Shard array and locks *)

(** [data->results[li]] *)
Definition shard (rs : results_t) (li : Z) : table_t :=
  if bool_decide (0 ≤ li) then default ∅ (rs !! Z.to_nat li) else ∅.

(** In-place update of [data->results[li]]; the mapper only calls it with
    [0 <= li < NUM_LETTERS], outside that range the model leaves the array
    unchanged. *)
Definition update_shard (rs : results_t) (li : Z) (f : table_t → table_t)
  : results_t :=
  if bool_decide (0 ≤ li) then alter f (Z.to_nat li) rs else rs.

Inductive lock_id := QueueLock | ShardLock (li : Z).

Inductive lock_event := Acquire (l : lock_id) | Release (l : lock_id).

#[global] Instance lock_id_eq_dec : EqDecision lock_id.
Proof. solve_decision. Defined.

#[global] Instance lock_event_eq_dec : EqDecision lock_event.
Proof. solve_decision. Defined.

(** [add_table(data->results[li], w, file_id)] together with the lock
    operations it performs on that shard's mutex. *)
Definition add_table_shard (rs : results_t) (li : Z) (w : string) (file_id : Z)
  : results_t * list lock_event :=
  (update_shard rs li (λ t, add_table t w file_id),
   [Acquire (ShardLock li); Release (ShardLock li)]).

(** The merge loops of the mapper (one [add_table] per accumulated
    (letter, word) pair), with the lock operations they perform. *)
Fixpoint merge_local (rs : results_t) (calls : list (Z * string)) (file_id : Z)
  : results_t * list lock_event :=
  match calls with
  | [] => (rs, [])
  | c :: rest =>
      let r1 := add_table_shard rs c.1 c.2 file_id in
      let r2 := merge_local r1.1 rest file_id in
      (r2.1, r1.2 ++ r2.2)
  end.

(** Number of acquisitions of one lock in a sequence of lock operations. *)
Definition acquisitions (l : lock_id) (evs : list lock_event) : nat :=
  length (filter (λ e, e = Acquire l) evs).

(** ** Input files *)

(** The manifest as the core sees it: entry [i] is [None] when file [i]
    cannot be opened, and otherwise the whitespace-delimited tokens that
    [file >> word] yields. *)
Abbreviation manifest := (list (option (list string))).

(** [std::ifstream file(files[file_id])] *)
Definition open_file (files : manifest) (file_id : Z)
  : option (option (list string)) :=
  if bool_decide (0 ≤ file_id) then files !! Z.to_nat file_id else None.

(** ** Interleaving semantics of the mapper threads *)

(** Control points of [mapper]: before the dequeue (lines 83-93), before
    opening the dequeued file (lines 95-113), inside the merge loops with
    the calls still to be made (lines 116-121) and at the barrier
    (line 124). *)
Inductive mapper_pc :=
  | PcDequeue
  | PcRead (file_id : Z)
  | PcMerge (file_id : Z) (calls : list (Z * string))
  | PcBarrier.

#[global] Instance mapper_pc_eq_dec : EqDecision mapper_pc.
Proof. solve_decision. Defined.

Record state := mkState {
  file_queue : list Z;
  results : results_t;
  mappers : list mapper_pc
}.

Inductive event :=
  | EvDequeue (t : nat) (r : option Z)
  | EvRead (t : nat) (file_id : Z) (opened : bool)
  | EvAdd (t : nat) (li : Z) (w : string) (file_id : Z)
  | EvNext (t : nat).

Definition set_pc (σ : state) (t : nat) (pc : mapper_pc) : state :=
  mkState (file_queue σ) (results σ) (<[t := pc]> (mappers σ)).

(** One transition of mapper thread [t].  The iteration order of
    [std::unordered_map] is unspecified, so [step_read_ok] admits every
    ordering of the accumulated pairs. *)
Inductive step (files : manifest) : state → event → state → Prop :=
  | step_dequeue_empty σ t :
      mappers σ !! t = Some PcDequeue →
      file_queue σ = [] →
      step files σ (EvDequeue t None) (set_pc σ t PcBarrier)
  | step_dequeue σ t f q :
      mappers σ !! t = Some PcDequeue →
      file_queue σ = f :: q →
      step files σ (EvDequeue t (Some f))
        (mkState q (results σ) (<[t := PcRead f]> (mappers σ)))
  | step_read_fail σ t f :
      mappers σ !! t = Some (PcRead f) →
      open_file files f = Some None →
      step files σ (EvRead t f false) (set_pc σ t PcDequeue)
  | step_read_ok σ t f tokens calls :
      mappers σ !! t = Some (PcRead f) →
      open_file files f = Some (Some tokens) →
      calls ≡ₚ bucket_calls (read_words tokens) →
      step files σ (EvRead t f true) (set_pc σ t (PcMerge f calls))
  | step_add σ t f li w calls :
      mappers σ !! t = Some (PcMerge f ((li, w) :: calls)) →
      step files σ (EvAdd t li w f)
        (mkState (file_queue σ) (add_table_shard (results σ) li w f).1
           (<[t := PcMerge f calls]> (mappers σ)))
  | step_next σ t f :
      mappers σ !! t = Some (PcMerge f []) →
      step files σ (EvNext t) (set_pc σ t PcDequeue).

(** Executions: a start state, the events in order, the state reached. *)
Inductive steps (files : manifest) : state → list event → state → Prop :=
  | steps_nil σ : steps files σ [] σ
  | steps_snoc σ tr σ' e σ'' :
      steps files σ tr σ' → step files σ' e σ'' →
      steps files σ (tr ++ [e]) σ''.

(** The state [main] builds before it creates the threads: the queue holds
    [0 .. nr_files-1] in order, the shards are empty, every mapper is at
    the top of its loop. *)
Definition init (files : manifest) (nr_mappers : Z) : state :=
  mkState (seqZ 0 (Z.of_nat (length files)))
          (replicate (Z.to_nat NUM_LETTERS) ∅)
          (replicate (Z.to_nat nr_mappers) PcDequeue).

(** Every mapper has arrived at the barrier: the map phase is over. *)
Definition map_phase_done (σ : state) : Prop :=
  Forall (λ pc, pc = PcBarrier) (mappers σ).

(** The file indices returned by the dequeues of an execution, in order. *)
Fixpoint dequeued (tr : list event) : list Z :=
  match tr with
  | [] => []
  | EvDequeue _ (Some f) :: tr' => f :: dequeued tr'
  | _ :: tr' => dequeued tr'
  end.

(** A deterministic scheduler for running the model: thread [t] makes its
    next transition, iterating the Local Aggregate in the order of
    [bucket_calls]. *)
Definition step_thread (files : manifest) (t : nat) (σ : state)
  : option (event * state) :=
  match mappers σ !! t with
  | None | Some PcBarrier => None
  | Some PcDequeue =>
      match file_queue σ with
      | [] => Some (EvDequeue t None, set_pc σ t PcBarrier)
      | f :: q =>
          Some (EvDequeue t (Some f),
                mkState q (results σ) (<[t := PcRead f]> (mappers σ)))
      end
  | Some (PcRead f) =>
      match open_file files f with
      | None => None
      | Some None => Some (EvRead t f false, set_pc σ t PcDequeue)
      | Some (Some tokens) =>
          Some (EvRead t f true,
                set_pc σ t (PcMerge f (bucket_calls (read_words tokens))))
      end
  | Some (PcMerge f []) => Some (EvNext t, set_pc σ t PcDequeue)
  | Some (PcMerge f ((li, w) :: calls)) =>
      Some (EvAdd t li w f,
            mkState (file_queue σ) (add_table_shard (results σ) li w f).1
              (<[t := PcMerge f calls]> (mappers σ)))
  end.

Fixpoint run (files : manifest) (sched : list nat) (σ : state)
  : list event * state :=
  match sched with
  | [] => ([], σ)
  | t :: sched' =>
      match step_thread files t σ with
      | None => run files sched' σ
      | Some (e, σ') =>
          let r := run files sched' σ' in (e :: r.1, r.2)
      end
  end.

(** ** Reducer *)

(** The comparator passed to [std::sort]: more file ids first, then the
    word in ascending order. *)
Definition comp (a b : WordEntry) : bool :=
  if bool_decide (length (file_ids a) ≠ length (file_ids b))
  then bool_decide (length (file_ids b) < length (file_ids a))%nat
  else String.ltb (word a) (word b).

(** [std::sort(first, last, cmp)], as an insertion sort: [std::sort] only
    promises an ordered permutation, and [sort_unique] below shows that on
    entries with distinct words there is exactly one. *)
Fixpoint sort_insert (cmp : WordEntry → WordEntry → bool) (x : WordEntry)
    (l : list WordEntry) : list WordEntry :=
  match l with
  | [] => [x]
  | y :: l' => if cmp x y then x :: l else y :: sort_insert cmp x l'
  end.

Fixpoint sort (cmp : WordEntry → WordEntry → bool) (l : list WordEntry)
  : list WordEntry :=
  match l with
  | [] => []
  | x :: l' => sort_insert cmp x (sort cmp l')
  end.

(** The copy loop under the shard lock: [words_array] holds the entries of
    the table, in the iteration order of the model's map. *)
Definition words_array (table : table_t) : list WordEntry :=
  (map_to_list table).*2.

(** The loop of [reducer] over [letter_index], with [n] iterations left.
    [sink_ok li] tells whether the output stream for letter [li] opens.
    The result lists the artifacts written, as (letter index, entries in
    the order of their lines).  When a stream does not open the function
    returns, as the source does. *)
Fixpoint reducer_loop (rs : results_t) (sink_ok : Z → bool)
    (letter_index : Z) (n : nat) : list (Z * list WordEntry) :=
  match n with
  | O => []
  | S n' =>
      let arr := sort comp (words_array (shard rs letter_index)) in
      if sink_ok letter_index
      then (letter_index, arr)
             :: reducer_loop rs sink_ok (letter_index + 1) n'
      else []
  end.

Definition start_index (reducer_id num_reducers : Z) : Z :=
  (reducer_id * NUM_LETTERS) ÷ num_reducers.

Definition end_index (reducer_id num_reducers : Z) : Z :=
  Z.min NUM_LETTERS (((reducer_id + 1) * NUM_LETTERS) ÷ num_reducers).

Definition reducer (rs : results_t) (sink_ok : Z → bool)
    (reducer_id num_reducers : Z) : list (Z * list WordEntry) :=
  let s := start_index reducer_id num_reducers in
  let e := end_index reducer_id num_reducers in
  reducer_loop rs sink_ok s (Z.to_nat (e - s)).

(** The artifacts written by reducers [0 .. num_reducers-1] once the
    barrier has released them.  The reducers write distinct files
    ([in_range_unique]) and no thread writes the shards any more,
    so the order in which they run does not matter. *)
Definition reduce_phase (rs : results_t) (sink_ok : Z → bool)
    (num_reducers : Z) : list (Z * list WordEntry) :=
  seqZ 0 num_reducers ≫= λ i, reducer rs sink_ok i num_reducers.

(** The entries of the artifact of letter [li], if it was written. *)
Definition artifact (out : list (Z * list WordEntry)) (li : Z)
  : option (list WordEntry) :=
  (λ r, r.2.2) <$> list_find (λ a, a.1 = li) out.

(** One output line without its newline: [word:[id1 id2 ...]]. *)
Definition render_ids (ids : list Z) : string :=
  foldl (λ a b, if bool_decide (a = EmptyString) then pretty b
                else a +:+ " " +:+ pretty b) EmptyString ids.

Definition render_entry (e : WordEntry) : string :=
  word e +:+ ":[" +:+ render_ids (file_ids e) +:+ "]".

(** ** Sequential reference: a single mapper that takes the files in
    manifest order. *)

Definition map_file (rs : results_t) (file_id : Z) (r : option (list string))
  : results_t :=
  match r with
  | None => rs
  | Some tokens =>
      (merge_local rs (bucket_calls (read_words tokens)) file_id).1
  end.

Fixpoint map_files (rs : results_t) (file_id : Z) (files : manifest)
  : results_t :=
  match files with
  | [] => rs
  | r :: files' => map_files (map_file rs file_id r) (file_id + 1) files'
  end.

Definition index_of (files : manifest) : results_t :=
  map_files (replicate (Z.to_nat NUM_LETTERS) ∅) 0 files.

(** ** Test inputs *)

(** The two-file scenario: file 0 is "Cat cat DOG", file 1 is "dog cat". *)
Definition scenario1 : manifest :=
  [Some ["Cat"; "cat"; "DOG"]; Some ["dog"; "cat"]]%string.

(** A manifest whose first file does not exist. *)
Definition scenario2 : manifest :=
  [None; Some ["Zebra,"; "apple"; "zebra"]]%string.

(** A single file with the one word "a". *)
Definition scenario3 : manifest := [Some ["a"]]%string.

(** Three words of one shard, one of them in two files. *)
Definition scenario4 : manifest :=
  [Some ["ab"; "aa"; "ac"]; Some ["ac"]]%string.

(** The non-empty artifacts of a run, rendered as lines. *)
Definition rendered (out : list (Z * list WordEntry))
  : list (Z * list string) :=
  (λ a : Z * list WordEntry, (a.1, render_entry <$> a.2))
    <$> filter (λ a : Z * list WordEntry, a.2 ≠ []) out.

(** A schedule for one mapper, and one that interleaves two mappers. *)
Definition sched1 : list nat := replicate 12 0%nat.

Definition sched2 : list nat :=
  [0; 1; 0; 1; 0; 1; 1; 0; 0; 1; 1; 0; 0; 1; 1; 0; 1; 1]%nat.

(** * Vocabulary of the properties *)

(** What [add_table] does to the vector of an existing entry. *)
Definition insert_id (ids : list Z) (v : Z) : list Z :=
  match ids !! lower_bound ids v with
  | Some x => if bool_decide (x ≠ v) then vector_insert ids (lower_bound ids v) v
              else ids
  | None => vector_insert ids (lower_bound ids v) v
  end.

(** An [add_table] call is recorded as (file index, letter index, word). *)
Abbreviation call_t := (Z * Z * string)%type.

(** [represents rs ops] says that the shards [rs] hold exactly what the
    calls [ops] put there: an entry for each (letter, word) that was
    added, whose ids are the 1-based indices of the files it was added
    for, in strictly increasing order.  It only depends on which calls are
    in [ops], not on their order. *)
Definition represents (rs : results_t) (ops : list call_t) : Prop :=
  length rs = Z.to_nat NUM_LETTERS ∧
  ∀ li w, 0 ≤ li < NUM_LETTERS →
    match shard rs li !! w with
    | None => ∀ f, (f, li, w) ∉ ops
    | Some e =>
        word e = w ∧ StronglySorted Z.lt (file_ids e) ∧
        file_ids e ≠ [] ∧
        ∀ id, id ∈ file_ids e ↔ ∃ f, id = f + 1 ∧ (f, li, w) ∈ ops
    end.

(** The non-empty cleaned words of a file, one per token occurrence. *)
Definition cleaned_words (tokens : list string) : list string :=
  filter (λ w, w ≠ EmptyString) (clean_word <$> tokens).

(** Word [w] is counted in bucket [li] of the Local Aggregate. *)
Definition in_local (lr : local_t) (li : Z) (w : string) : Prop :=
  ∃ b, lr !! li = Some b ∧ is_Some (b !! w).

(** The calls [calls] of file [f], recorded with the file index. *)
Definition tag (f : Z) (calls : list (Z * string)) : list call_t :=
  (λ c, (f, c.1, c.2)) <$> calls.

(** The [add_table] calls that processing file [f] issues. *)
Definition file_calls (files : manifest) (f : Z) : list call_t :=
  match open_file files f with
  | Some (Some tokens) => tag f (bucket_calls (read_words tokens))
  | _ => []
  end.

(** The calls of all files of the manifest, in manifest order. *)
Definition all_calls (files : manifest) : list call_t :=
  seqZ 0 (Z.of_nat (length files)) ≫= file_calls files.

(** The calls a thread has still to make for the file it holds. *)
Definition owed (files : manifest) (pc : mapper_pc) : list call_t :=
  match pc with
  | PcRead f => file_calls files f
  | PcMerge f calls => tag f calls
  | PcDequeue | PcBarrier => []
  end.

(** The calls all threads together have still to make. *)
Definition owed_all (files : manifest) (ms : list mapper_pc) : list call_t :=
  ms ≫= owed files.

(** The invariant of the map phase, for an execution with events [tr] that
    has reached [σ]: the dequeued indices followed by the queue are
    [0 .. nr_files-1]; once a mapper is at the barrier the queue is empty;
    the number of mappers is fixed; the shards hold the calls made so far,
    which together with the calls still owed are the calls of the dequeued
    files. *)
Record map_inv (files : manifest) (nr_mappers : Z) (tr : list event)
    (σ : state) : Prop := {
  inv_queue :
    dequeued tr ++ file_queue σ = seqZ 0 (Z.of_nat (length files));
  inv_barrier : PcBarrier ∈ mappers σ → file_queue σ = [];
  inv_threads : length (mappers σ) = Z.to_nat nr_mappers;
  inv_results :
    ∃ done, represents (results σ) done ∧
      done ++ owed_all files (mappers σ) ≡ₚ dequeued tr ≫= file_calls files
}.

(** The order of the artifacts as the specification words it: descending
    number of file ids, then ascending (lexicographic) word. *)
Definition entry_lt (a b : WordEntry) : Prop :=
  (length (file_ids b) < length (file_ids a))%nat ∨
  (length (file_ids a) = length (file_ids b) ∧
   String.compare (word a) (word b) = Lt).

(** Shard [s] lies in the range of reducer [i] of [R]. *)
Definition in_range (i R s : Z) : Prop :=
  start_index i R ≤ s < end_index i R.

(** Every key of a table is the word of its entry. *)
Definition keys_ok (table : table_t) : Prop :=
  ∀ w e, table !! w = Some e → word e = w.

(** Every file-id vector of a table is strictly increasing. *)
Definition ids_sorted (table : table_t) : Prop :=
  ∀ w e, table !! w = Some e → StronglySorted Z.lt (file_ids e).

(** What the reducer writes for shard [li] when its stream opens. *)
Definition sorted_shard (rs : results_t) (li : Z) : list WordEntry :=
  sort comp (words_array (shard rs li)).

(** Every key is the word of its entry, is not empty and starts with the
    letter of the shard that holds it. *)
Definition keys_consistent (rs : results_t) : Prop :=
  ∀ s w e, shard rs s !! w = Some e →
    word e = w ∧ w ≠ EmptyString ∧ letter_index w = s.

(** The calls a mapper still has to make go to the shard of the word. *)
Definition calls_consistent (calls : list (Z * string)) : Prop :=
  Forall (λ c, c.2 ≠ EmptyString ∧ letter_index c.2 = c.1) calls.

(** The invariant of C10 on a state of the map phase. *)
Definition consistent_state (σ : state) : Prop :=
  keys_consistent (results σ) ∧
  ∀ t f calls, mappers σ !! t = Some (PcMerge f calls) →
    calls_consistent calls.

(** The lock operations of one [add_table] call. *)
Definition lock_pair (c : Z * string) : list lock_event :=
  [Acquire (ShardLock c.1); Release (ShardLock c.1)].

(** Number of transitions a thread can still make for what it holds. *)
Definition pc_cost (files : manifest) (pc : mapper_pc) : nat :=
  match pc with
  | PcBarrier => 0
  | PcDequeue => 1
  | PcMerge _ calls => length calls + 2
  | PcRead f => length (file_calls files f) + 3
  end.

(** A bound on the number of transitions left in the map phase. *)
Definition measure (files : manifest) (σ : state) : nat :=
  sum_list_with (λ f, length (file_calls files f) + 4)%nat (file_queue σ)
  + sum_list_with (pc_cost files) (mappers σ).

(** ** Vocabulary of the further properties *)

(** A lowercase letter, ['a'] to ['z']. *)
Definition is_lower (c : ascii) : Prop :=
  (97 ≤ N_of_ascii c ≤ 122)%N.

(** Number of occurrences of [w] among the cleaned words of a file. *)
Definition occurrences (w : string) (tokens : list string) : nat :=
  length (filter (λ x, x = w) (cleaned_words tokens)).

(** The file a mapper holds between its dequeue and the end of its merge. *)
Definition held (pc : mapper_pc) : list Z :=
  match pc with
  | PcRead f | PcMerge f _ => [f]
  | PcDequeue | PcBarrier => []
  end.

(** The cleaned words of all files that open, with repetitions. *)
Definition all_words (files : manifest) : list string :=
  files ≫= λ r, default [] (cleaned_words <$> r).

(** File [f] opens and contains the word [w]. *)
Definition file_has_word (files : manifest) (w : string) (f : Z) : bool :=
  match open_file files f with
  | Some (Some tokens) => bool_decide (w ∈ cleaned_words tokens)
  | _ => false
  end.

(** ** [main]: the threads it creates *)

(** What a created thread runs: [mapper], or [reducer] with its
    [ReducerArgs]. *)
Inductive role :=
  | Mapper
  | Reducer (reducer_id num_reducers : Z).

(** The loop of [main] that creates the threads, [i] running from [0] to
    [nr_mappers + nr_reducers - 1]. *)
Definition thread_roles (nr_mappers nr_reducers : Z) : list role :=
  (λ i, if bool_decide (i < nr_mappers) then Mapper
        else Reducer (i - nr_mappers) nr_reducers)
    <$> seqZ 0 (nr_mappers + nr_reducers).

(** The participant count passed to [pthread_barrier_init]. *)
Definition barrier_count (nr_mappers nr_reducers : Z) : Z :=
  nr_mappers + nr_reducers.

(** * Properties *)

Example clean_word_ex : clean_word "D.o-G's!" = "dogs"%string.
Proof. reflexivity. Qed.

Example add_table_ex :
  add_table (add_table (add_table ∅ "cat" 1) "cat" 0) "cat" 1 !! "cat"%string
  = Some (mkWordEntry "cat" [1; 2]).
Proof. vm_compute. reflexivity. Qed.

(** ** The scenarios of the specification *)

Example scenario1_interleaved :
  (run scenario1 sched2 (init scenario1 2)).2
  = mkState [] (index_of scenario1) [PcBarrier; PcBarrier].
Proof. by vm_compute. Qed.

Example scenario1_artifacts :
  rendered (reduce_phase (index_of scenario1) (λ _, true) 3)
  = [(2, ["cat:[1 2]"]); (3, ["dog:[1 2]"])]%string ∧
  (reduce_phase (index_of scenario1) (λ _, true) 3).*1 = seqZ 0 26.
Proof. by vm_compute. Qed.

Example scenario2_artifacts :
  (run scenario2 sched1 (init scenario2 1)).2
  = mkState [] (index_of scenario2) [PcBarrier] ∧
  rendered (reduce_phase (index_of scenario2) (λ _, true) 2)
  = [(0, ["apple:[2]"]); (25, ["zebra:[2]"])]%string.
Proof. by vm_compute. Qed.

Example scenario3_artifacts :
  (run scenario3 sched1 (init scenario3 1)).2
  = mkState [] (index_of scenario3) [PcBarrier] ∧
  rendered (reduce_phase (index_of scenario3) (λ _, true) 26)
  = [(0, ["a:[1]"])]%string ∧
  (reduce_phase (index_of scenario3) (λ _, true) 26).*1 = seqZ 0 26.
Proof. by vm_compute. Qed.

Example scenario4_artifacts :
  rendered (reduce_phase (index_of scenario4) (λ _, true) 4)
  = [(0, ["ac:[1 2]"; "aa:[1]"; "ab:[1]"])]%string.
Proof. by vm_compute. Qed.

(** ** The file-id vector of an entry *)

Lemma vector_insert_cons_S x l k v :
  vector_insert (x :: l) (S k) v = x :: vector_insert l k v.
Proof. reflexivity. Qed.

Lemma elem_of_vector_insert l k v y :
  y ∈ vector_insert l k v ↔ y = v ∨ y ∈ l.
Proof.
  unfold vector_insert. rewrite elem_of_app, elem_of_cons.
  rewrite <- (take_drop k l) at 3. rewrite elem_of_app. tauto.
Qed.

Lemma elem_of_insert_id l v y : y ∈ insert_id l v ↔ y = v ∨ y ∈ l.
Proof.
  unfold insert_id. destruct (l !! lower_bound l v) as [x|] eqn:E.
  - case_bool_decide as Hx.
    + apply elem_of_vector_insert.
    + subst x. apply list_elem_of_lookup_2 in E.
      split; [tauto | intros [->|]; done].
  - apply elem_of_vector_insert.
Qed.

Lemma insert_id_sorted l v :
  StronglySorted Z.lt l → StronglySorted Z.lt (insert_id l v).
Proof.
  unfold insert_id. induction 1 as [|x l Hl IH Hx]; simpl.
  - repeat constructor.
  - destruct (Z.ltb_spec x v) as [Hlt|Hge]; simpl.
    + destruct (l !! lower_bound l v) as [y|] eqn:E.
      * case_bool_decide; [|by constructor].
        rewrite vector_insert_cons_S. constructor; [done|].
        apply Forall_forall. intros z [->|Hz]%elem_of_vector_insert; [done|].
        by eapply Forall_forall in Hx.
      * rewrite vector_insert_cons_S. constructor; [done|].
        apply Forall_forall. intros z [->|Hz]%elem_of_vector_insert; [done|].
        by eapply Forall_forall in Hx.
    + case_bool_decide as Hne; [|by constructor].
      unfold vector_insert; simpl. constructor; [by constructor|].
      constructor; [lia|]. eapply Forall_impl; [exact Hx|]. simpl; lia.
Qed.

Lemma insert_id_present l v :
  StronglySorted Z.lt l → v ∈ l → insert_id l v = l.
Proof.
  unfold insert_id. induction 1 as [|x l Hl IH Hx]; intros Hin.
  - by apply elem_of_nil in Hin.
  - simpl. destruct (Z.ltb_spec x v) as [Hlt|Hge]; simpl.
    + apply elem_of_cons in Hin as [->|Hin]; [lia|].
      specialize (IH Hin). destruct (l !! lower_bound l v) as [y|] eqn:E.
      * case_bool_decide; [|done]. rewrite vector_insert_cons_S. by f_equal.
      * rewrite vector_insert_cons_S. by f_equal.
    + apply elem_of_cons in Hin as [->|Hin].
      * by rewrite bool_decide_false by naive_solver.
      * eapply Forall_forall in Hx; [|done]. lia.
Qed.

Lemma sorted_lt_NoDup (l : list Z) : StronglySorted Z.lt l → NoDup l.
Proof.
  induction 1 as [|x l Hl IH Hx]; constructor; [|done].
  intros Hin. eapply Forall_forall in Hx; [|done]. lia.
Qed.

Lemma sorted_lt_unique (l1 l2 : list Z) :
  StronglySorted Z.lt l1 → StronglySorted Z.lt l2 →
  (∀ x, x ∈ l1 ↔ x ∈ l2) → l1 = l2.
Proof.
  intros H1 H2 Hiff. apply (StronglySorted_unique_strong Z.lt); [|done..|].
  - intros; lia.
  - apply NoDup_Permutation; auto using sorted_lt_NoDup.
Qed.

(** ** [add_table] on one table *)

Lemma add_table_lookup table w f w' :
  add_table table w f !! w' =
  if decide (w = w') then
    Some (match table !! w with
          | None => mkWordEntry w [f + 1]
          | Some e => mkWordEntry (word e) (insert_id (file_ids e) (f + 1))
          end)
  else table !! w'.
Proof.
  unfold add_table, insert_id.
  destruct (table !! w) as [e|] eqn:E.
  - destruct (file_ids e !! lower_bound (file_ids e) (f + 1)) as [x|] eqn:Ex.
    + case_bool_decide.
      * rewrite lookup_insert. by repeat case_decide.
      * case_decide; [subst w'|done]. rewrite E. by destruct e.
    + rewrite lookup_insert. by repeat case_decide.
  - rewrite lookup_insert. by repeat case_decide.
Qed.

(** ** The shard array *)

Lemma length_update_shard rs li g : length (update_shard rs li g) = length rs.
Proof. unfold update_shard. case_bool_decide; [apply length_alter|done]. Qed.

Lemma shard_update_shard rs li g li' :
  0 ≤ li' < Z.of_nat (length rs) →
  shard (update_shard rs li g) li' =
  if decide (li = li') then g (shard rs li') else shard rs li'.
Proof.
  intros Hli'. unfold shard, update_shard.
  rewrite (bool_decide_true (0 ≤ li')) by lia.
  destruct (lookup_lt_is_Some_2 rs (Z.to_nat li')) as [tb Htb]; [lia|].
  case_bool_decide as Hli.
  - case_decide as Heq.
    + subst li'. by rewrite list_lookup_alter_eq, Htb.
    + rewrite list_lookup_alter_ne by lia. done.
  - rewrite decide_False by lia. done.
Qed.

(** ** What a shard array represents *)

Lemma represents_init : represents (replicate (Z.to_nat NUM_LETTERS) ∅) [].
Proof.
  split; [by rewrite length_replicate|].
  intros li w Hli. unfold shard. rewrite bool_decide_true by lia.
  rewrite lookup_replicate_2 by (unfold NUM_LETTERS in *; lia).
  simpl. rewrite lookup_empty. intros f Hf. by apply elem_of_nil in Hf.
Qed.

Lemma represents_perm rs ops ops' :
  ops ≡ₚ ops' → represents rs ops → represents rs ops'.
Proof.
  intros Hp [Hlen H]. split; [done|]. intros li w Hli.
  specialize (H li w Hli). destruct (shard rs li !! w) as [e|].
  - destruct H as (?&?&?&Hid). repeat split; try done.
    + intros [f [-> Hf]]%Hid. exists f. by rewrite <- Hp.
    + intros [f [-> Hf]]. apply Hid. exists f. by rewrite Hp.
  - intros f. rewrite <- Hp. apply H.
Qed.

Lemma represents_add rs ops f li w :
  represents rs ops →
  represents (add_table_shard rs li w f).1 (ops ++ [(f, li, w)]).
Proof.
  intros [Hlen H]. split; [simpl; by rewrite length_update_shard|].
  intros li' w' Hli'. simpl.
  rewrite shard_update_shard by (rewrite Hlen; unfold NUM_LETTERS in *; lia).
  specialize (H li' w' Hli').
  assert (Hother : (li, w) ≠ (li', w') →
    match shard rs li' !! w' with
    | Some e =>
        word e = w' ∧ StronglySorted Z.lt (file_ids e) ∧ file_ids e ≠ [] ∧
        ∀ id, id ∈ file_ids e ↔
              ∃ f', id = f' + 1 ∧ (f', li', w') ∈ ops ++ [(f, li, w)]
    | None => ∀ f', (f', li', w') ∉ ops ++ [(f, li, w)]
    end).
  { intros Hne. destruct (shard rs li' !! w') as [e|].
    - destruct H as (?&?&?&Hid). repeat split; try done.
      + intros [f' [-> Hf']]%Hid. exists f'. rewrite elem_of_app. auto.
      + intros [f' [-> [Hf'|Hf']%elem_of_app]]; [apply Hid; eauto|].
        apply list_elem_of_singleton in Hf'. congruence.
    - intros f' [Hf'|Hf']%elem_of_app; [by eapply H|].
      apply list_elem_of_singleton in Hf'. congruence. }
  case_decide as Hli; [subst li'|apply Hother; congruence].
  rewrite add_table_lookup. case_decide as Hw; [subst w'|apply Hother; congruence].
  destruct (shard rs li !! w) as [e|]; simpl.
  - destruct H as (?&?&?&Hid). repeat split; try done.
    + by apply insert_id_sorted.
    + intros Hnil. assert (Hin : f + 1 ∈ insert_id (file_ids e) (f + 1))
        by (apply elem_of_insert_id; auto).
      rewrite Hnil in Hin. by apply elem_of_nil in Hin.
    + intros [->|[f' [-> Hf']]%Hid]%elem_of_insert_id.
      * exists f. rewrite elem_of_app, list_elem_of_singleton. auto.
      * exists f'. rewrite elem_of_app. auto.
    + intros [f' [-> [Hf'|Hf']%elem_of_app]]; apply elem_of_insert_id.
      * right. apply Hid. eauto.
      * apply list_elem_of_singleton in Hf'. left. congruence.
  - repeat split; try done.
    + repeat constructor.
    + intros ->%list_elem_of_singleton. exists f.
      rewrite elem_of_app, list_elem_of_singleton. auto.
    + intros [f' [-> [Hf'|Hf']%elem_of_app]].
      * by apply H in Hf'.
      * apply list_elem_of_singleton in Hf'. apply list_elem_of_singleton.
        congruence.
Qed.

Lemma represents_unique rs rs' ops :
  represents rs ops → represents rs' ops → rs = rs'.
Proof.
  intros [Hlen H] [Hlen' H']. apply list_eq_same_length with (Z.to_nat NUM_LETTERS);
    [done..|].
  intros i tb tb' Hi Htb Htb'. apply map_eq. intros w.
  assert (Hli : 0 ≤ Z.of_nat i < NUM_LETTERS) by lia.
  specialize (H _ w Hli). specialize (H' _ w Hli).
  unfold shard in H, H'. rewrite bool_decide_true in H, H' by lia.
  rewrite Nat2Z.id in H, H'. rewrite Htb in H. rewrite Htb' in H'.
  simpl in H, H'.
  destruct (tb !! w) as [e|], (tb' !! w) as [e'|]; try done.
  - destruct H as (Hw&Hs&_&Hid), H' as (Hw'&Hs'&_&Hid').
    destruct e as [we ids], e' as [we' ids']; simpl in *. f_equal. f_equal.
    + congruence.
    + apply sorted_lt_unique; [done..|]. intros x. by rewrite Hid, Hid'.
  - destruct H as (_&_&Hne&Hid). destruct (file_ids e) as [|id ids]; [done|].
    destruct (proj1 (Hid id)) as [f [_ Hf]]; [by left|]. by apply H' in Hf.
  - destruct H' as (_&_&Hne&Hid). destruct (file_ids e') as [|id ids]; [done|].
    destruct (proj1 (Hid id)) as [f [_ Hf]]; [by left|]. by apply H in Hf.
Qed.

(** ** The tokenizer and the Local Aggregate *)

Lemma isalpha_tolower_range c :
  isalpha c = true → 0 ≤ Z.of_N (N_of_ascii (tolower c)) - 97 < NUM_LETTERS.
Proof.
  destruct c as [[] [] [] [] [] [] [] []]; vm_compute; intros H;
    first [discriminate H | split; [intros ?|]; congruence].
Qed.

Lemma clean_word_letter_range raw :
  clean_word raw ≠ EmptyString →
  0 ≤ letter_index (clean_word raw) < NUM_LETTERS.
Proof.
  unfold clean_word. induction raw as [|c raw IH]; simpl; [done|].
  destruct (isalpha c) eqn:Hc; simpl; [|done].
  intros _. by apply isalpha_tolower_range.
Qed.

Lemma in_local_count_word lr li w li' w' :
  in_local (count_word lr li w) li' w' ↔
  (li = li' ∧ w = w') ∨ in_local lr li' w'.
Proof.
  unfold in_local, count_word. split.
  - intros (b & Hb & Hw). destruct (decide (li = li')) as [->|Hne].
    + rewrite lookup_insert_eq in Hb. injection Hb as <-.
      destruct (decide (w = w')) as [->|Hnw]; [by left|right].
      rewrite lookup_insert_ne in Hw by done.
      destruct (lr !! li') as [b|]; simpl in *; [eauto|].
      rewrite lookup_empty in Hw. by destruct Hw.
    + rewrite lookup_insert_ne in Hb by done. eauto.
  - intros [[-> ->]|(b & Hb & Hw)].
    + eexists. split; [apply lookup_insert_eq|].
      rewrite lookup_insert_eq. eauto.
    + destruct (decide (li = li')) as [->|Hne].
      * eexists. split; [apply lookup_insert_eq|]. rewrite Hb. simpl.
        destruct (decide (w = w')) as [->|Hnw];
          [rewrite lookup_insert_eq; eauto|by rewrite lookup_insert_ne].
      * exists b. by rewrite lookup_insert_ne.
Qed.

Lemma in_local_read_words tokens li w :
  in_local (read_words tokens) li w ↔
  w ∈ cleaned_words tokens ∧ li = letter_index w.
Proof.
  unfold read_words, cleaned_words.
  induction tokens as [|raw tokens IH] using rev_ind.
  - simpl. split.
    + intros (b & Hb & _). by rewrite lookup_empty in Hb.
    + intros [Hin _]. by apply elem_of_nil in Hin.
  - rewrite foldl_snoc, fmap_app, filter_app, elem_of_app. simpl.
    unfold read_word at 1. rewrite filter_cons, filter_nil.
    case_bool_decide as Hw.
    + rewrite decide_True by done.
      rewrite bool_decide_true by (by apply clean_word_letter_range).
      rewrite in_local_count_word, IH, list_elem_of_singleton.
      split; [intros [[<- <-]|[? ?]]|intros [[?| ->] ->]]; auto.
    + rewrite decide_False by (intros ?; done).
      rewrite IH. split; [intros [? ?]|intros [[?|[]%elem_of_nil] ?]]; auto.
Qed.

Lemma elem_of_bucket_calls lr li w :
  (li, w) ∈ bucket_calls lr ↔ in_local lr li w.
Proof.
  unfold bucket_calls, in_local. rewrite list_elem_of_bind. split.
  - intros ([li' b] & Hin & Hb). simpl in *.
    apply list_elem_of_fmap in Hin as ([w' c] & [= -> ->] & Hin).
    apply elem_of_map_to_list in Hin, Hb. eauto.
  - intros (b & Hb & [c Hc]). exists (li, b). split.
    + apply list_elem_of_fmap. exists (w, c). split; [done|].
      by apply elem_of_map_to_list.
    + by apply elem_of_map_to_list.
Qed.

Lemma NoDup_bucket_calls lr : NoDup (bucket_calls lr).
Proof.
  unfold bucket_calls. apply NoDup_bind.
  - intros [li b] [li' b'] [li'' w] Hb Hb' Hin Hin'. simpl in *.
    apply list_elem_of_fmap in Hin as (? & [= -> ->] & Hin).
    apply list_elem_of_fmap in Hin' as (? & [= -> _] & Hin').
    apply elem_of_map_to_list in Hb, Hb'. congruence.
  - intros [li b] _. simpl. apply NoDup_fmap_2_strong.
    + intros [w c] [w' c'] Hin Hin' [= ->]. simpl in *.
      apply elem_of_map_to_list in Hin, Hin'. congruence.
    + apply NoDup_map_to_list.
  - apply NoDup_map_to_list.
Qed.

(** The calls of one file: one per distinct non-empty cleaned word, each to
    the shard of the word's first letter. *)
Lemma elem_of_file_calls tokens li w :
  (li, w) ∈ bucket_calls (read_words tokens) ↔
  w ∈ cleaned_words tokens ∧ li = letter_index w.
Proof. by rewrite elem_of_bucket_calls, in_local_read_words. Qed.

Lemma cleaned_words_letter_range tokens w :
  w ∈ cleaned_words tokens → 0 ≤ letter_index w < NUM_LETTERS.
Proof.
  unfold cleaned_words. intros [Hne Hin]%list_elem_of_filter.
  apply list_elem_of_fmap in Hin as (raw & -> & _).
  by apply clean_word_letter_range.
Qed.

(** ** The calls of a whole run *)

Lemma elem_of_tag f calls f' li w :
  (f', li, w) ∈ tag f calls ↔ f' = f ∧ (li, w) ∈ calls.
Proof.
  unfold tag. rewrite list_elem_of_fmap. split.
  - intros ([li' w'] & [= -> -> ->] & Hin). done.
  - intros [-> Hin]. by exists (li, w).
Qed.

Lemma elem_of_file_calls_tagged files f' f li w :
  (f', li, w) ∈ file_calls files f ↔
  f' = f ∧ ∃ tokens, open_file files f = Some (Some tokens) ∧
    w ∈ cleaned_words tokens ∧ li = letter_index w.
Proof.
  unfold file_calls. destruct (open_file files f) as [[tokens|]|].
  - rewrite elem_of_tag, elem_of_file_calls. split.
    + intros [-> ?]. eauto.
    + intros [-> (? & [= <-] & ?)]. done.
  - rewrite elem_of_nil. split; [done|]. by intros [_ (? & ? & _)].
  - rewrite elem_of_nil. split; [done|]. by intros [_ (? & ? & _)].
Qed.

Lemma open_file_Some files f r :
  open_file files f = Some r ↔
  0 ≤ f < Z.of_nat (length files) ∧ files !! Z.to_nat f = Some r.
Proof.
  unfold open_file. case_bool_decide as Hf.
  - split; [|by intros [_ ?]]. intros Hr. split; [|done].
    apply lookup_lt_Some in Hr. lia.
  - split; [done|]. intros [? _]. lia.
Qed.

Lemma elem_of_all_calls files f li w :
  (f, li, w) ∈ all_calls files ↔
  ∃ tokens, open_file files f = Some (Some tokens) ∧
    w ∈ cleaned_words tokens ∧ li = letter_index w.
Proof.
  unfold all_calls. rewrite list_elem_of_bind. split.
  - intros (f' & (-> & H)%elem_of_file_calls_tagged & _). done.
  - intros (tokens & Ho & H). exists f. split.
    + apply elem_of_file_calls_tagged. eauto.
    + apply elem_of_seqZ. apply open_file_Some in Ho. lia.
Qed.

Lemma merge_local_represents rs ops calls f :
  represents rs ops →
  represents (merge_local rs calls f).1 (ops ++ tag f calls).
Proof.
  revert rs ops. induction calls as [|[li w] calls IH]; intros rs ops H; simpl.
  - by rewrite app_nil_r.
  - rewrite cons_middle, app_assoc. apply IH. by apply represents_add.
Qed.

Lemma map_file_represents files rs ops f r :
  open_file files f = Some r →
  represents rs ops →
  represents (map_file rs f r) (ops ++ file_calls files f).
Proof.
  intros Ho H. unfold map_file, file_calls. rewrite Ho. destruct r.
  - by apply merge_local_represents.
  - by rewrite app_nil_r.
Qed.

Lemma map_files_represents pre files rs :
  represents rs
    (seqZ 0 (Z.of_nat (length pre)) ≫= file_calls (pre ++ files)) →
  represents (map_files rs (Z.of_nat (length pre)) files)
    (all_calls (pre ++ files)).
Proof.
  revert pre rs. induction files as [|r files IH]; intros pre rs H; simpl.
  - unfold all_calls. by rewrite app_nil_r in *.
  - rewrite cons_middle, app_assoc.
    replace (Z.of_nat (length pre) + 1) with (Z.of_nat (length (pre ++ [r])))
      by (rewrite length_app; simpl; lia).
    apply IH. rewrite length_app. simpl length.
    rewrite Nat.add_1_r, seqZ_S, bind_app, bind_singleton. simpl.
    rewrite <- app_assoc, <- cons_middle.
    apply map_file_represents; [|done].
    apply open_file_Some. rewrite length_app. simpl. split; [lia|].
    rewrite Z.add_0_l, Nat2Z.id. by rewrite list_lookup_middle.
Qed.

(** The sequential reference holds exactly the calls of all files. *)
Lemma index_of_represents files :
  represents (index_of files) (all_calls files).
Proof. apply (map_files_represents [] files), represents_init. Qed.

(** ** Invariant of the map phase *)

Lemma owed_all_insert files ms t pc :
  ms !! t = Some pc →
  ∃ rest, owed_all files ms ≡ₚ owed files pc ++ rest ∧
    ∀ pc', owed_all files (<[t := pc']> ms) ≡ₚ owed files pc' ++ rest.
Proof.
  intros Ht. exists (owed_all files (take t ms) ++ owed_all files (drop (S t) ms)).
  unfold owed_all. split.
  - rewrite <- (take_drop_middle ms t pc Ht) at 1.
    rewrite bind_app, bind_cons. solve_Permutation.
  - intros pc'. rewrite insert_take_drop by (by eapply lookup_lt_Some).
    rewrite bind_app, bind_cons. solve_Permutation.
Qed.

Lemma dequeued_app tr tr' : dequeued (tr ++ tr') = dequeued tr ++ dequeued tr'.
Proof.
  induction tr as [|[t [f|]| | |] tr IH]; simpl; by rewrite ?IH.
Qed.

Lemma elem_of_insert_inv (ms : list mapper_pc) t pc pc' :
  pc' ∈ <[t := pc]> ms → pc' = pc ∨ pc' ∈ ms.
Proof.
  revert t. induction ms as [|m ms IH]; intros [|t]; simpl;
    rewrite ?elem_of_cons; [auto|auto|tauto|].
  intros [->|H]; [auto|]. destruct (IH _ H); auto.
Qed.

Lemma map_inv_init files nr_mappers :
  map_inv files nr_mappers [] (init files nr_mappers).
Proof.
  split; simpl.
  - done.
  - intros [[=] _]%elem_of_replicate.
  - apply length_replicate.
  - exists []. split; [apply represents_init|].
    unfold owed_all. induction (Z.to_nat nr_mappers); simpl; done.
Qed.

Lemma map_inv_step files nr_mappers tr σ e σ' :
  map_inv files nr_mappers tr σ → step files σ e σ' →
  map_inv files nr_mappers (tr ++ [e]) σ'.
Proof.
  intros [Hq Hb Hn (done & Hrep & Hperm)] Hstep.
  destruct Hstep as [σ t Ht Hempty | σ t f q Ht Hqueue | σ t f Ht Ho
    | σ t f tokens calls Ht Ho Hcalls | σ t f li w calls Ht | σ t f Ht];
    destruct (owed_all_insert files _ _ _ Ht) as (rest & Hrest & Hrest');
    rewrite Hrest in Hperm; simpl in Hperm;
    (split; simpl; rewrite ?dequeued_app, ?length_insert; simpl;
     rewrite ?app_nil_r; [| |done|]).
  - done.
  - done.
  - exists done. split; [done|]. by rewrite Hrest'.
  - rewrite <- app_assoc. simpl. by rewrite <- Hqueue.
  - intros [[=]|Hin]%elem_of_insert_inv. apply Hb in Hin. congruence.
  - exists done. split; [done|]. rewrite Hrest', bind_app, bind_singleton.
    simpl. rewrite <- Hperm. solve_Permutation.
  - done.
  - intros [[=]|Hin]%elem_of_insert_inv. by apply Hb.
  - exists done. split; [done|]. rewrite Hrest'. simpl.
    unfold file_calls in Hperm. by rewrite Ho in Hperm.
  - done.
  - intros [[=]|Hin]%elem_of_insert_inv. by apply Hb.
  - exists done. split; [done|]. rewrite Hrest'. simpl.
    unfold file_calls in Hperm. rewrite Ho in Hperm.
    rewrite <- Hperm. unfold tag. by rewrite Hcalls.
  - done.
  - intros [[=]|Hin]%elem_of_insert_inv. by apply Hb.
  - exists (done ++ [(f, li, w)]). split; [by apply represents_add|].
    rewrite Hrest'. simpl. rewrite <- Hperm. solve_Permutation.
  - done.
  - intros [[=]|Hin]%elem_of_insert_inv. by apply Hb.
  - exists done. split; [done|]. by rewrite Hrest'.
Qed.

Lemma map_inv_steps files nr_mappers tr σ :
  steps files (init files nr_mappers) tr σ → map_inv files nr_mappers tr σ.
Proof.
  remember (init files nr_mappers) as σ0 eqn:E.
  induction 1 as [|σ0 tr σ' e σ'' _ IH Hstep]; subst.
  - apply map_inv_init.
  - eapply map_inv_step; eauto.
Qed.

Lemma owed_all_done files ms :
  Forall (λ pc, pc = PcBarrier) ms → owed_all files ms = [].
Proof. unfold owed_all. induction 1 as [|pc ms -> _ IH]; [done|]. by csimpl. Qed.

(** When at least one mapper exists and all of them have reached the
    barrier, the queue has been drained in order and the shards hold the
    calls of all files, whatever the interleaving was. *)
Lemma map_phase_final files nr_mappers tr σ :
  0 < nr_mappers →
  steps files (init files nr_mappers) tr σ →
  map_phase_done σ →
  file_queue σ = [] ∧
  dequeued tr = seqZ 0 (Z.of_nat (length files)) ∧
  results σ = index_of files.
Proof.
  intros Hn Hsteps Hdone. unfold map_phase_done in Hdone.
  destruct (map_inv_steps _ _ _ _ Hsteps) as [Hq Hb Hlen (done & Hrep & Hperm)].
  assert (Hempty : file_queue σ = []).
  { apply Hb. destruct (mappers σ) as [|pc ms]; [simpl in Hlen; lia|].
    apply Forall_cons in Hdone as [-> _]. left. }
  rewrite Hempty, app_nil_r in Hq. split; [done|]. split; [done|].
  rewrite owed_all_done, app_nil_r, Hq in Hperm by done.
  eapply represents_unique; [|apply index_of_represents].
  eapply represents_perm; [|exact Hrep]. exact Hperm.
Qed.

(** Without any mapper the barrier has nobody to wait for: the start state
    already counts as the end of the map phase, with the queue untouched.
    This is why the statements about the end of the map phase assume at
    least one mapper. *)
Lemma map_phase_without_mappers files :
  map_phase_done (init files 0) ∧
  file_queue (init files 0) = seqZ 0 (Z.of_nat (length files)).
Proof. split; [constructor|done]. Qed.

(** ** The scheduler produces executions of the semantics *)

Lemma steps_cons files σ e σ' tr σ'' :
  step files σ e σ' → steps files σ' tr σ'' → steps files σ (e :: tr) σ''.
Proof.
  intros Hstep. induction 1 as [|σ' tr σ1 e' σ2 _ IH Hstep'].
  - apply (steps_snoc _ _ [] σ); [constructor|done].
  - rewrite app_comm_cons. eapply steps_snoc; eauto.
Qed.

Lemma step_thread_sound files t σ e σ' :
  step_thread files t σ = Some (e, σ') → step files σ e σ'.
Proof.
  unfold step_thread. destruct (mappers σ !! t) as [[|f|f [|[li w] calls]|]|] eqn:Ht;
    try done.
  - destruct (file_queue σ) as [|f q] eqn:Hq; intros [= <- <-].
    + by apply step_dequeue_empty.
    + by apply step_dequeue.
  - destruct (open_file files f) as [[tokens|]|] eqn:Ho; intros [= <- <-].
    + by apply (step_read_ok _ _ _ _ tokens).
    + by apply step_read_fail.
  - intros [= <- <-]. by apply (step_next _ _ _ f).
  - intros [= <- <-]. by apply step_add.
Qed.

Lemma run_sound files sched σ :
  steps files σ (run files sched σ).1 (run files sched σ).2.
Proof.
  revert σ. induction sched as [|t sched IH]; intros σ; simpl.
  - constructor.
  - destruct (step_thread files t σ) as [[e σ']|] eqn:Hs; [|apply IH].
    simpl. eapply steps_cons; [by apply (step_thread_sound _ t)|apply IH].
Qed.

(** ** The order of the reducer *)

Lemma string_compare_refl s : String.compare s s = Eq.
Proof.
  induction s as [|c s IH]; simpl; [done|].
  unfold Ascii.compare. by rewrite N.compare_refl.
Qed.

Lemma string_compare_lt_trans s1 s2 s3 :
  String.compare s1 s2 = Lt → String.compare s2 s3 = Lt →
  String.compare s1 s3 = Lt.
Proof.
  revert s2 s3. induction s1 as [|a s1 IH]; intros [|b s2] [|c s3]; simpl;
    try done.
  unfold Ascii.compare.
  destruct (N.compare_spec (N_of_ascii a) (N_of_ascii b)) as [Hab|Hab|Hab];
    try done;
    destruct (N.compare_spec (N_of_ascii b) (N_of_ascii c)) as [Hbc|Hbc|Hbc];
    try done; intros H1 H2.
  - rewrite Hab, Hbc, N.compare_refl. eauto.
  - by rewrite Hab, (proj2 (N.compare_lt_iff _ _) Hbc).
  - by rewrite <- Hbc, (proj2 (N.compare_lt_iff _ _) Hab).
  - rewrite (proj2 (N.compare_lt_iff (N_of_ascii a) (N_of_ascii c))); [done|].
    by etrans.
Qed.

Lemma comp_spec a b : comp a b = true ↔ entry_lt a b.
Proof.
  unfold comp, entry_lt, String.ltb. case_bool_decide as Hlen.
  - rewrite bool_decide_eq_true. split; [auto|]. intros [?|[? _]]; [done|lia].
  - split.
    + destruct (String.compare (word a) (word b)); try done. intros _.
      right. split; [lia|done].
    + intros [?|[_ ->]]; [lia|done].
Qed.

Lemma entry_lt_irrefl a : ¬ entry_lt a a.
Proof. intros [?|[_ H]]; [lia|]. by rewrite string_compare_refl in H. Qed.

Lemma entry_lt_trans a b c : entry_lt a b → entry_lt b c → entry_lt a c.
Proof.
  intros [?|[? ?]] [?|[? ?]]; [left; lia..|].
  right. split; [lia|]. by eapply string_compare_lt_trans.
Qed.

Lemma entry_lt_asym a b : entry_lt a b → entry_lt b a → False.
Proof. intros H1 H2. eapply entry_lt_irrefl, entry_lt_trans; eauto. Qed.

Lemma entry_lt_total a b : word a ≠ word b → entry_lt a b ∨ entry_lt b a.
Proof.
  intros Hne. unfold entry_lt.
  destruct (lt_eq_lt_dec (length (file_ids a)) (length (file_ids b)))
    as [[?| Heq]|?]; [auto..| |auto].
  destruct (String.compare (word a) (word b)) eqn:Hc.
  - by apply String.compare_eq_iff in Hc.
  - auto.
  - right. right. split; [done|].
    by rewrite String.compare_antisym, Hc.
Qed.

(** ** [std::sort] *)

Lemma sort_insert_perm cmp x l : sort_insert cmp x l ≡ₚ x :: l.
Proof.
  induction l as [|y l IH]; simpl; [done|].
  destruct (cmp x y); [done|]. rewrite IH. apply Permutation_swap.
Qed.

Lemma sort_perm cmp l : sort cmp l ≡ₚ l.
Proof.
  induction l as [|x l IH]; simpl; [done|].
  by rewrite sort_insert_perm, IH.
Qed.

Lemma sort_insert_sorted x l :
  word x ∉ word <$> l →
  StronglySorted entry_lt l → StronglySorted entry_lt (sort_insert comp x l).
Proof.
  intros Hx. induction 1 as [|y l Hl IH Hy]; simpl.
  - repeat constructor.
  - rewrite fmap_cons, not_elem_of_cons in Hx. destruct Hx as [Hxy Hx].
    destruct (comp x y) eqn:Hc.
    + apply comp_spec in Hc. constructor; [by constructor|].
      constructor; [done|]. eapply Forall_impl; [exact Hy|].
      intros z. by apply entry_lt_trans.
    + constructor; [by apply IH|].
      apply Forall_forall. intros z Hz. rewrite sort_insert_perm in Hz.
      apply elem_of_cons in Hz as [->|Hz]; [|by eapply Forall_forall in Hy].
      destruct (entry_lt_total x y Hxy) as [H|H]; [|done].
      apply comp_spec in H. congruence.
Qed.

Lemma sort_sorted l :
  NoDup (word <$> l) → StronglySorted entry_lt (sort comp l).
Proof.
  induction l as [|x l IH]; simpl; [constructor|].
  rewrite ?fmap_cons, NoDup_cons. intros [Hx Hl].
  apply sort_insert_sorted; [|by apply IH]. by rewrite sort_perm.
Qed.

(** There is only one ordered arrangement of entries with distinct words:
    the result does not depend on the sorting algorithm nor on the order in
    which the table was traversed. *)
Lemma sort_unique l l' :
  NoDup (word <$> l) → l' ≡ₚ l → StronglySorted entry_lt l' →
  l' = sort comp l.
Proof.
  intros Hnd Hp Hs. apply (StronglySorted_unique_strong entry_lt).
  - intros a b _ _ H1 H2. destruct (entry_lt_asym a b H1 H2).
  - done.
  - by apply sort_sorted.
  - by rewrite sort_perm.
Qed.

(** ** The shard ranges of the reducers *)

Lemma start_index_div i R :
  0 ≤ i → 0 < R → start_index i R = (i * NUM_LETTERS) `div` R.
Proof.
  intros. unfold start_index, NUM_LETTERS. apply Z.quot_div_nonneg; lia.
Qed.

Lemma end_index_start i R :
  0 ≤ i < R → end_index i R = start_index (i + 1) R.
Proof.
  intros. unfold end_index. rewrite start_index_div by lia.
  unfold NUM_LETTERS. rewrite Z.quot_div_nonneg by lia.
  apply Z.min_r. apply Z.div_le_upper_bound; nia.
Qed.

Lemma start_index_0 R : start_index 0 R = 0.
Proof. unfold start_index. by destruct R. Qed.

Lemma start_index_last R : 0 < R → start_index R R = NUM_LETTERS.
Proof.
  intros. rewrite start_index_div by lia. rewrite Z.mul_comm.
  apply Z.div_mul. lia.
Qed.

Lemma start_index_mono i j R :
  0 ≤ i ≤ j → 0 < R → start_index i R ≤ start_index j R.
Proof.
  intros. rewrite !start_index_div by lia.
  apply Z.div_le_mono; unfold NUM_LETTERS; lia.
Qed.

Lemma in_range_iff i R s :
  0 ≤ i < R →
  in_range i R s ↔
  i * NUM_LETTERS < (s + 1) * R ∧ (s + 1) * R ≤ (i + 1) * NUM_LETTERS.
Proof.
  intros Hi. unfold in_range. rewrite end_index_start by done.
  rewrite !start_index_div by lia. unfold NUM_LETTERS.
  pose proof (Z.div_mod (i * 26) R ltac:(lia)) as H1.
  pose proof (Z.mod_pos_bound (i * 26) R ltac:(lia)) as H1'.
  pose proof (Z.div_mod ((i + 1) * 26) R ltac:(lia)) as H2.
  pose proof (Z.mod_pos_bound ((i + 1) * 26) R ltac:(lia)) as H2'.
  split.
  - intros [Ha Hb]. split; nia.
  - intros [Ha Hb]. split.
    + apply Z.lt_succ_r. apply Z.div_lt_upper_bound; lia.
    + apply Z.lt_le_trans with (s + 1); [lia|].
      apply Z.div_le_lower_bound; lia.
Qed.

Lemma in_range_unique i j R s :
  0 ≤ i < R → 0 ≤ j < R → in_range i R s → in_range j R s → i = j.
Proof.
  intros Hi Hj [H1 H2]%in_range_iff [H3 H4]%in_range_iff; try done.
  unfold NUM_LETTERS in *. lia.
Qed.

Lemma in_range_exists R s :
  0 < R → 0 ≤ s < NUM_LETTERS → ∃ i, 0 ≤ i < R ∧ in_range i R s.
Proof.
  intros HR Hs. unfold NUM_LETTERS in Hs.
  exists (((s + 1) * R - 1) `div` 26).
  pose proof (Z.div_mod ((s + 1) * R - 1) 26 ltac:(lia)) as H1.
  pose proof (Z.mod_pos_bound ((s + 1) * R - 1) 26 ltac:(lia)) as H1'.
  assert (0 ≤ ((s + 1) * R - 1) `div` 26 < R) as Hi.
  { split; [apply Z.div_pos; nia|apply Z.div_lt_upper_bound; nia]. }
  split; [done|]. apply in_range_iff; [done|]. unfold NUM_LETTERS. lia.
Qed.

Lemma in_range_bounds i R s :
  0 ≤ i < R → in_range i R s → 0 ≤ s < NUM_LETTERS.
Proof.
  intros Hi [H1 H2]%in_range_iff; [|done]. unfold NUM_LETTERS in *. nia.
Qed.

(** Laid end to end, the ranges of reducers [0 .. k-1] are exactly the
    shards below [start_index k R]. *)
Lemma ranges_concat R (k : nat) :
  Z.of_nat k ≤ R →
  seqZ 0 (Z.of_nat k) ≫=
    (λ i, seqZ (start_index i R) (end_index i R - start_index i R))
  = seqZ 0 (start_index (Z.of_nat k) R).
Proof.
  induction k as [|k IH]; intros Hk.
  - by rewrite start_index_0.
  - rewrite seqZ_S, bind_app, bind_singleton. rewrite IH by lia.
    rewrite Z.add_0_l, end_index_start by lia.
    replace (Z.of_nat k + 1) with (Z.of_nat (S k)) by lia.
    assert (start_index (Z.of_nat k) R ≤ start_index (Z.of_nat (S k)) R)
      by (apply start_index_mono; lia).
    assert (0 ≤ start_index (Z.of_nat k) R)
      by (rewrite <- (start_index_0 R); apply start_index_mono; lia).
    rewrite <- seqZ_app by lia. f_equal. lia.
Qed.

(** ** The reducer *)

Lemma elem_of_words_array table e :
  e ∈ words_array table ↔ ∃ w, table !! w = Some e.
Proof.
  unfold words_array. rewrite list_elem_of_fmap. split.
  - intros ([w e'] & -> & Hin). exists w. by apply elem_of_map_to_list.
  - intros [w Hw]. exists (w, e). split; [done|]. by apply elem_of_map_to_list.
Qed.

Lemma words_array_NoDup table :
  keys_ok table → NoDup (word <$> words_array table).
Proof.
  intros Hk. unfold words_array.
  replace (word <$> (map_to_list table).*2) with ((map_to_list table).*1).
  - apply NoDup_fst_map_to_list.
  - rewrite <- list_fmap_compose. apply list_fmap_ext.
    intros i [w e] Hi. simpl. symmetry. apply Hk.
    apply elem_of_map_to_list. by eapply list_elem_of_lookup_2.
Qed.

Lemma elem_of_sorted_shard rs li e :
  e ∈ sorted_shard rs li ↔ ∃ w, shard rs li !! w = Some e.
Proof. unfold sorted_shard. by rewrite sort_perm, elem_of_words_array. Qed.

Lemma shard_out_of_range rs li :
  ¬ (0 ≤ li < Z.of_nat (length rs)) → shard rs li = ∅.
Proof.
  intros Hli. unfold shard. case_bool_decide; [|done].
  rewrite lookup_ge_None_2 by lia. done.
Qed.

Lemma represents_shard rs ops li w e :
  represents rs ops → shard rs li !! w = Some e →
  0 ≤ li < NUM_LETTERS ∧ word e = w ∧ StronglySorted Z.lt (file_ids e) ∧
  ∀ id, id ∈ file_ids e ↔ ∃ f, id = f + 1 ∧ (f, li, w) ∈ ops.
Proof.
  intros [Hlen H] He.
  destruct (decide (0 ≤ li < NUM_LETTERS)) as [Hli|Hli].
  - specialize (H li w Hli). rewrite He in H.
    destruct H as (?&?&_&?). done.
  - rewrite shard_out_of_range, lookup_empty in He; [done|].
    rewrite Hlen. unfold NUM_LETTERS in *. lia.
Qed.

Lemma represents_keys_ok rs ops li : represents rs ops → keys_ok (shard rs li).
Proof. intros H w e He. by eapply represents_shard in He as (_&?&_). Qed.

Lemma elem_of_reducer_loop rs sink_ok s n li arr :
  (li, arr) ∈ reducer_loop rs sink_ok s n →
  s ≤ li < s + Z.of_nat n ∧ arr = sorted_shard rs li ∧ sink_ok li = true.
Proof.
  revert s. induction n as [|n IH]; intros s; simpl.
  - by intros ?%elem_of_nil.
  - destruct (sink_ok s) eqn:Hs; [|by intros ?%elem_of_nil].
    intros [[= -> ->]|Hin]%elem_of_cons.
    + split; [lia|done].
    + apply IH in Hin. split; [lia|tauto].
Qed.

(** After the first stream that does not open, nothing more is written. *)
Lemma reducer_loop_stops rs sink_ok s n k li arr :
  s ≤ k → sink_ok k = false →
  (li, arr) ∈ reducer_loop rs sink_ok s n → li < k.
Proof.
  revert s. induction n as [|n IH]; intros s Hk Hfail; simpl.
  - by intros ?%elem_of_nil.
  - destruct (sink_ok s) eqn:Hs; [|by intros ?%elem_of_nil].
    assert (s ≠ k) by congruence.
    intros [[= -> ->]|Hin]%elem_of_cons; [lia|].
    eapply (IH (s + 1)); [lia|done..].
Qed.

Lemma reducer_loop_all_ok rs sink_ok s n :
  (∀ li, sink_ok li = true) →
  reducer_loop rs sink_ok s n
  = (λ li, (li, sorted_shard rs li)) <$> seqZ s (Z.of_nat n).
Proof.
  intros Hok. revert s. induction n as [|n IH]; intros s; simpl; [done|].
  rewrite Hok, IH, (seqZ_cons s) by lia. simpl. do 3 f_equal; lia.
Qed.

Lemma elem_of_reduce_phase rs sink_ok R li arr :
  (li, arr) ∈ reduce_phase rs sink_ok R →
  0 ≤ li < NUM_LETTERS ∧ arr = sorted_shard rs li ∧ sink_ok li = true.
Proof.
  unfold reduce_phase, reducer. rewrite list_elem_of_bind.
  intros (i & Hin & Hi%elem_of_seqZ).
  apply elem_of_reducer_loop in Hin as (Hli & -> & Hok).
  split; [|done]. apply (in_range_bounds i R); [lia|].
  unfold in_range. lia.
Qed.

Lemma reduce_phase_all_ok rs sink_ok R :
  0 < R → (∀ li, sink_ok li = true) →
  reduce_phase rs sink_ok R
  = (λ li, (li, sorted_shard rs li)) <$> seqZ 0 NUM_LETTERS.
Proof.
  intros HR Hok. unfold reduce_phase, reducer.
  pose proof (ranges_concat R (Z.to_nat R)) as Hcat.
  rewrite Z2Nat.id, start_index_last in Hcat by lia.
  rewrite <- Hcat by lia. clear Hcat.
  induction (seqZ 0 R) as [|i l IH]; [done|].
  rewrite !bind_cons, fmap_app, <- IH. f_equal.
  rewrite reducer_loop_all_ok by done. f_equal.
  unfold seqZ. by rewrite Nat2Z.id.
Qed.

(** The artifact of a letter, in terms of what was written. *)
Lemma artifact_Some out li arr :
  artifact out li = Some arr → (li, arr) ∈ out.
Proof.
  unfold artifact. destruct (list_find _ out) as [[i [li' arr']]|] eqn:E;
    [|done].
  intros [= <-]. apply list_find_Some in E as (Hi & Hli & _). simpl in *.
  subst li'. by eapply list_elem_of_lookup_2.
Qed.

Lemma artifact_all_ok rs sink_ok R li :
  0 < R → (∀ li, sink_ok li = true) → 0 ≤ li < NUM_LETTERS →
  artifact (reduce_phase rs sink_ok R) li = Some (sorted_shard rs li).
Proof.
  intros HR Hok Hli. rewrite reduce_phase_all_ok by done.
  unfold artifact.
  destruct (list_find_elem_of (λ a : Z * list WordEntry, a.1 = li)
    ((λ li, (li, sorted_shard rs li)) <$> seqZ 0 NUM_LETTERS)
    (li, sorted_shard rs li)) as [[i [li' arr]] E].
  - apply list_elem_of_fmap. exists li. split; [done|].
    apply elem_of_seqZ. lia.
  - done.
  - rewrite E. simpl. apply list_find_Some in E as (Hi & Hli' & _).
    apply list_elem_of_lookup_2, list_elem_of_fmap in Hi as (? & [= -> ->] & _).
    simpl in Hli'. by subst.
Qed.

(** ** Invariants of the tables *)

Lemma ids_sorted_empty : ids_sorted ∅.
Proof. intros w e He. by rewrite lookup_empty in He. Qed.

Lemma add_table_ids_sorted table w f :
  ids_sorted table → ids_sorted (add_table table w f).
Proof.
  intros H w' e. rewrite add_table_lookup. case_decide as Hw; [|apply H].
  intros [= <-]. destruct (table !! w) as [e0|] eqn:E; simpl.
  - apply insert_id_sorted. by eapply H.
  - repeat constructor.
Qed.

Lemma add_table_keys_ok table w f :
  keys_ok table → keys_ok (add_table table w f).
Proof.
  intros H w' e. rewrite add_table_lookup. case_decide as Hw; [|apply H].
  intros [= <-]. subst w'. destruct (table !! w) as [e0|] eqn:E; simpl; [|done].
  by apply H.
Qed.

(** Inserting an id that the entry already holds changes nothing. *)
Lemma add_table_present table w f e :
  table !! w = Some e → StronglySorted Z.lt (file_ids e) →
  f + 1 ∈ file_ids e → add_table table w f = table.
Proof.
  intros He Hs Hin. apply map_eq. intros w'. rewrite add_table_lookup.
  case_decide as Hw; [subst w'|done].
  rewrite He, insert_id_present by done. by destruct e.
Qed.

Lemma map_inv_shard files nr_mappers tr σ li w e :
  steps files (init files nr_mappers) tr σ →
  shard (results σ) li !! w = Some e →
  0 ≤ li < NUM_LETTERS ∧ word e = w ∧ StronglySorted Z.lt (file_ids e) ∧
  ∀ id, id ∈ file_ids e →
    ∃ f tokens, id = f + 1 ∧ open_file files f = Some (Some tokens) ∧
      w ∈ cleaned_words tokens ∧ li = letter_index w.
Proof.
  intros Hsteps He.
  destruct (map_inv_steps _ _ _ _ Hsteps) as [_ _ _ (done & Hrep & Hperm)].
  eapply represents_shard in He as (Hli & Hw & Hs & Hid); [|done].
  split_and!; [lia|lia|done|done|].
  intros id [f [-> Hf]]%Hid.
  assert (Hin : (f, li, w) ∈ dequeued tr ≫= file_calls files).
  { rewrite <- Hperm, elem_of_app. by left. }
  apply list_elem_of_bind in Hin as (f' & Hin & _).
  apply elem_of_file_calls_tagged in Hin as (-> & tokens & ? & ? & ?).
  by exists f', tokens.
Qed.

(** C6. WordEntry invariant: the empty table satisfies it, every
    [add_table] call preserves it, so it holds after any sequence of calls,
    in every shard of every state the mappers can reach, and in every entry
    a reducer writes: [file_ids] is strictly increasing and has no
    duplicates. *)
Theorem file_ids_strictly_increasing :
  ids_sorted ∅ ∧
  (∀ table w f, ids_sorted table → ids_sorted (add_table table w f)) ∧
  (∀ calls : list (string * Z),
     ids_sorted (foldl (λ t c, add_table t c.1 c.2) ∅ calls)) ∧
  (∀ files nr_mappers tr σ li,
     steps files (init files nr_mappers) tr σ →
     ids_sorted (shard (results σ) li)) ∧
  (∀ files nr_mappers tr σ sink_ok R li arr e,
     steps files (init files nr_mappers) tr σ →
     (li, arr) ∈ reduce_phase (results σ) sink_ok R → e ∈ arr →
     StronglySorted Z.lt (file_ids e) ∧ NoDup (file_ids e)).
Proof.
  split_and!.
  - apply ids_sorted_empty.
  - apply add_table_ids_sorted.
  - intros calls. induction calls as [|c calls IH] using rev_ind; simpl.
    + apply ids_sorted_empty.
    + rewrite foldl_snoc. by apply add_table_ids_sorted.
  - intros files nr_mappers tr σ li Hsteps w e He.
    by eapply map_inv_shard in He as (_&_&?&_).
  - intros files nr_mappers tr σ sink_ok R li arr e Hsteps Hin He.
    apply elem_of_reduce_phase in Hin as (_ & -> & _).
    apply elem_of_sorted_shard in He as [w He].
    eapply map_inv_shard in He as (_&_&?&_); [|done].
    split; [done|]. by apply sorted_lt_NoDup.
Qed.

Lemma file_ids_strictly_increasing_witness :
  StronglySorted Z.lt [1; 2] ∧ NoDup [1; 2].
Proof.
  destruct file_ids_strictly_increasing as (_ & _ & _ & _ & H).
  apply (H scenario1 2 (run scenario1 sched2 (init scenario1 2)).1
           (run scenario1 sched2 (init scenario1 2)).2
           (λ _, true) 3 2 [mkWordEntry "cat" [1; 2]] (mkWordEntry "cat" [1; 2])).
  - apply run_sound.
  - vm_compute. do 2 right. left.
  - left.
Defined.

(** ** Shard-table key consistency *)

Lemma shard_update_shard_gen rs li g li' :
  shard (update_shard rs li g) li' =
  if decide (li = li' ∧ 0 ≤ li' < Z.of_nat (length rs))
  then g (shard rs li') else shard rs li'.
Proof.
  destruct (decide (0 ≤ li' < Z.of_nat (length rs))) as [Hin|Hout].
  - rewrite shard_update_shard by done.
    destruct (decide (li = li')); [by rewrite decide_True|].
    rewrite decide_False; [done|]. by intros [? _].
  - rewrite decide_False by (by intros [_ ?]).
    rewrite !shard_out_of_range; [done..|].
    by rewrite length_update_shard.
Qed.

Lemma keys_consistent_add rs li w f :
  keys_consistent rs → w ≠ EmptyString → letter_index w = li →
  keys_consistent (add_table_shard rs li w f).1.
Proof.
  intros H Hw Hli s w' e. simpl. rewrite shard_update_shard_gen.
  case_decide as Hs; [|apply H]. destruct Hs as [-> Hs].
  rewrite add_table_lookup. case_decide as Heq; [subst w'|apply H].
  intros [= <-]. destruct (shard rs s !! w) as [e0|] eqn:E; simpl; [|done].
  apply H in E as (? & ? & ?). done.
Qed.

Lemma file_calls_consistent tokens :
  calls_consistent (bucket_calls (read_words tokens)).
Proof.
  apply Forall_forall. intros [li w] [Hw ->]%elem_of_file_calls. simpl.
  split; [|done]. unfold cleaned_words in Hw.
  by apply list_elem_of_filter in Hw as [? _].
Qed.

Lemma lookup_insert_pc (ms : list mapper_pc) t pc t' pc' :
  <[t := pc]> ms !! t' = Some pc' → pc' = pc ∨ ms !! t' = Some pc'.
Proof.
  destruct (decide (t = t')) as [->|Hne].
  - intros H. left.
    rewrite list_lookup_insert_eq in H; [congruence|].
    apply lookup_lt_Some in H. by rewrite length_insert in H.
  - rewrite list_lookup_insert_ne by done. auto.
Qed.

Lemma shard_replicate_empty n li : shard (replicate n ∅) li = ∅.
Proof.
  unfold shard. case_bool_decide; [|done].
  destruct (replicate n ∅ !! Z.to_nat li) as [tb|] eqn:E; [|done].
  by apply lookup_replicate in E as [-> _].
Qed.

Lemma consistent_state_init files nr_mappers :
  consistent_state (init files nr_mappers).
Proof.
  split.
  - intros s w e He. unfold init in He. cbn [results] in He.
    by rewrite shard_replicate_empty, lookup_empty in He.
  - intros t f calls Ht. unfold init in Ht. cbn [mappers] in Ht.
    by apply lookup_replicate in Ht as [[=] _].
Qed.

Lemma consistent_state_step files σ e σ' :
  consistent_state σ → step files σ e σ' → consistent_state σ'.
Proof.
  intros [Hk Hc] Hstep.
  destruct Hstep as [σ t Ht Hempty | σ t f q Ht Hqueue | σ t f Ht Ho
    | σ t f tokens calls Ht Ho Hcalls | σ t f li w calls Ht | σ t f Ht];
    (split; simpl; [try done|]).
  - intros t' f' calls' [[=]|H]%lookup_insert_pc. by eapply Hc.
  - intros t' f' calls' [[=]|H]%lookup_insert_pc. by eapply Hc.
  - intros t' f' calls' [[=]|H]%lookup_insert_pc. by eapply Hc.
  - intros t' f' calls' [[= -> ->]|H]%lookup_insert_pc; [|by eapply Hc].
    unfold calls_consistent. rewrite Hcalls. apply file_calls_consistent.
  - apply Hc in Ht. apply Forall_cons in Ht as [[Hw Hli] _].
    by apply keys_consistent_add.
  - intros t' f' calls' [[= -> ->]|H]%lookup_insert_pc; [|by eapply Hc].
    apply Hc in Ht. by apply Forall_cons in Ht as [_ ?].
  - intros t' f' calls' [[=]|H]%lookup_insert_pc. by eapply Hc.
Qed.

Lemma consistent_state_steps files nr_mappers tr σ :
  steps files (init files nr_mappers) tr σ → consistent_state σ.
Proof.
  remember (init files nr_mappers) as σ0 eqn:E.
  induction 1 as [|σ0 tr σ' e σ'' _ IH Hstep]; subst.
  - apply consistent_state_init.
  - eapply consistent_state_step; eauto.
Qed.

Lemma letter_index_first_char w s :
  w ≠ EmptyString → letter_index w = s →
  ∃ c rest, w = String c rest ∧
    Z.of_N (N_of_ascii c) = Z.of_N (N_of_ascii "a") + s.
Proof.
  destruct w as [|c rest]; [done|]. intros _ <-. exists c, rest.
  split; [done|]. simpl. lia.
Qed.

(** C10. Shard-table key consistency: the start state satisfies the
    invariant, every transition of every mapper preserves it, and so in
    every reachable state each key [w] of shard [s] maps to an entry whose
    word is [w], and the first character of [w] is ['a' + s]. *)
Theorem shard_key_consistency files nr_mappers :
  consistent_state (init files nr_mappers) ∧
  (∀ σ e σ', consistent_state σ → step files σ e σ' → consistent_state σ') ∧
  (∀ tr σ s w e,
     steps files (init files nr_mappers) tr σ →
     shard (results σ) s !! w = Some e →
     word e = w ∧ 0 ≤ s < NUM_LETTERS ∧
     ∃ c rest, w = String c rest ∧
       Z.of_N (N_of_ascii c) = Z.of_N (N_of_ascii "a") + s).
Proof.
  split_and!.
  - apply consistent_state_init.
  - apply consistent_state_step.
  - intros tr σ s w e Hsteps He.
    destruct (consistent_state_steps _ _ _ _ Hsteps) as [Hk _].
    destruct (Hk _ _ _ He) as (Hw & Hne & Hs).
    apply (map_inv_shard _ _ _ _ _ _ _ Hsteps) in He as (? & _).
    split_and!; [done|lia|lia|]. by apply letter_index_first_char.
Qed.

Lemma shard_key_consistency_witness :
  word (mkWordEntry "dog" [1; 2]) = "dog"%string ∧ 0 ≤ 3 < NUM_LETTERS ∧
  ∃ c rest, "dog"%string = String c rest ∧
    Z.of_N (N_of_ascii c) = Z.of_N (N_of_ascii "a") + 3.
Proof.
  destruct (shard_key_consistency scenario1 2) as (_ & _ & H).
  apply (H (run scenario1 sched2 (init scenario1 2)).1
           (run scenario1 sched2 (init scenario1 2)).2).
  - apply run_sound.
  - vm_compute. reflexivity.
Defined.

(** C8. Partition coverage: for every reducer count [R] in [1,26] the
    ranges [[i*26/R, (i+1)*26/R)] of ranks [0 .. R-1] are pairwise
    disjoint, contiguous, and cover exactly [[0,26)]: every shard lies in
    the range of exactly one reducer, no range leaves [[0,26)], each range
    ends where the next one starts, and laid end to end they are
    [0, 1, ..., 25].  The products computed on the way fit in an [int]. *)
Theorem reducer_ranges_partition R :
  1 ≤ R ≤ NUM_LETTERS →
  (∀ s, 0 ≤ s < NUM_LETTERS →
     ∃ i, 0 ≤ i < R ∧ in_range i R s ∧
          ∀ j, 0 ≤ j < R → in_range j R s → j = i) ∧
  (∀ i s, 0 ≤ i < R → in_range i R s → 0 ≤ s < NUM_LETTERS) ∧
  (∀ i j s, 0 ≤ i < R → 0 ≤ j < R → i ≠ j →
     ¬ (in_range i R s ∧ in_range j R s)) ∧
  start_index 0 R = 0 ∧
  end_index (R - 1) R = NUM_LETTERS ∧
  (∀ i, 0 ≤ i < R →
     start_index i R ≤ end_index i R ∧
     (i + 1 < R → end_index i R = start_index (i + 1) R)) ∧
  seqZ 0 R ≫= (λ i, seqZ (start_index i R) (end_index i R - start_index i R))
    = seqZ 0 NUM_LETTERS ∧
  (∀ i, 0 ≤ i < R → 0 ≤ (i + 1) * NUM_LETTERS < 2 ^ 31).
Proof.
  intros HR. split_and!.
  - intros s Hs. destruct (in_range_exists R s) as (i & Hi & Hin); [lia|done|].
    exists i. split_and!; [lia|lia|done|].
    intros j Hj Hjn. by apply (in_range_unique j i R s).
  - intros i s. apply in_range_bounds.
  - intros i j s Hi Hj Hne [H1 H2]. apply Hne.
    by apply (in_range_unique i j R s).
  - apply start_index_0.
  - rewrite end_index_start by lia. replace (R - 1 + 1) with R by lia.
    apply start_index_last. lia.
  - intros i Hi. rewrite end_index_start by done. split; [|done].
    apply start_index_mono; lia.
  - pose proof (ranges_concat R (Z.to_nat R)) as Hcat.
    rewrite Z2Nat.id, start_index_last in Hcat by lia. apply Hcat. lia.
  - intros i Hi. unfold NUM_LETTERS in *. lia.
Qed.

Lemma reducer_ranges_partition_witness :
  start_index 0 3 = 0 ∧ end_index 2 3 = NUM_LETTERS ∧
  seqZ 0 3 ≫= (λ i, seqZ (start_index i 3) (end_index i 3 - start_index i 3))
    = seqZ 0 NUM_LETTERS.
Proof.
  destruct (reducer_ranges_partition 3) as (_ & _ & _ & H0 & H1 & _ & H2 & _).
  - unfold NUM_LETTERS. lia.
  - exact (conj H0 (conj H1 H2)).
Defined.

(** ** The work queue *)

Lemma step_queue files σ e σ' :
  step files σ e σ' →
  match e with
  | EvDequeue _ (Some f) => file_queue σ = f :: file_queue σ'
  | _ => file_queue σ' = file_queue σ
  end.
Proof. by destruct 1. Qed.

Lemma filter_eq_absent (l : list Z) x :
  x ∉ l → filter (λ y, y = x) l = [].
Proof.
  induction l as [|y l IH]; [done|]. rewrite not_elem_of_cons.
  intros [Hne Hl]. rewrite filter_cons, decide_False by done. by apply IH.
Qed.

Lemma count_NoDup (l : list Z) x :
  NoDup l → x ∈ l → length (filter (λ y, y = x) l) = 1%nat.
Proof.
  induction 1 as [|y l Hy Hl IH]; [by intros ?%elem_of_nil|].
  rewrite filter_cons. intros [->|Hin]%elem_of_cons.
  - rewrite decide_True by done. simpl. by rewrite filter_eq_absent.
  - rewrite decide_False by (by intros ->). by apply IH.
Qed.

(** C9. Queue drain exactly-once: the queue starts as [0 .. nr_files-1];
    under any interleaving of the mappers, every dequeue removes the head
    of the queue and nothing else touches the queue, so the indices
    dequeued so far followed by those still queued are always
    [0 .. nr_files-1] (no index is returned twice, none is lost); when the
    mappers (at least one) have all reached the barrier the queue is empty
    and every index in [[0, nr_files)] has been dequeued exactly once. *)
Theorem queue_drained_exactly_once files nr_mappers tr σ :
  steps files (init files nr_mappers) tr σ →
  file_queue (init files nr_mappers) = seqZ 0 (Z.of_nat (length files)) ∧
  (∀ σ1 e σ2, step files σ1 e σ2 →
     match e with
     | EvDequeue _ (Some f) => file_queue σ1 = f :: file_queue σ2
     | _ => file_queue σ2 = file_queue σ1
     end) ∧
  dequeued tr ++ file_queue σ = seqZ 0 (Z.of_nat (length files)) ∧
  NoDup (dequeued tr) ∧
  (0 < nr_mappers → map_phase_done σ →
     file_queue σ = [] ∧
     dequeued tr = seqZ 0 (Z.of_nat (length files)) ∧
     ∀ f, 0 ≤ f < Z.of_nat (length files) →
       length (filter (λ y, y = f) (dequeued tr)) = 1%nat).
Proof.
  intros Hsteps.
  pose proof (inv_queue _ _ _ _ (map_inv_steps _ _ _ _ Hsteps)) as Hq.
  split_and!.
  - done.
  - apply step_queue.
  - done.
  - assert (Hnd : NoDup (dequeued tr ++ file_queue σ))
      by (rewrite Hq; apply NoDup_seqZ).
    by apply NoDup_app in Hnd as [? _].
  - intros Hn Hdone.
    destruct (map_phase_final _ _ _ _ Hn Hsteps Hdone) as (He & Hd & _).
    split_and!; [done..|]. intros f Hf. apply count_NoDup.
    + rewrite Hd. apply NoDup_seqZ.
    + rewrite Hd. apply elem_of_seqZ. lia.
Qed.

Lemma queue_drained_exactly_once_witness :
  file_queue (run scenario1 sched2 (init scenario1 2)).2 = [] ∧
  dequeued (run scenario1 sched2 (init scenario1 2)).1 = [0; 1].
Proof.
  destruct (queue_drained_exactly_once scenario1 2
              (run scenario1 sched2 (init scenario1 2)).1
              (run scenario1 sched2 (init scenario1 2)).2) as (_ & _ & _ & _ & H).
  - apply run_sound.
  - destruct H as (H1 & H2 & _).
    + lia.
    + vm_compute. repeat constructor.
    + exact (conj H1 H2).
Defined.

(** C7. Sort order: the entries of every written artifact are strictly
    ordered by descending number of file ids and then ascending word (any
    two entries in list order, in particular adjacent ones, are in this
    order); their words are distinct, and on them the order is a strict
    total order, decided by the comparator of the reducer. *)
Theorem artifacts_sorted files nr_mappers tr σ sink_ok R li arr :
  steps files (init files nr_mappers) tr σ →
  (li, arr) ∈ reduce_phase (results σ) sink_ok R →
  StronglySorted entry_lt arr ∧
  Sorted entry_lt arr ∧
  NoDup (word <$> arr) ∧
  (∀ a b, a ∈ arr → b ∈ arr → a ≠ b → entry_lt a b ∨ entry_lt b a) ∧
  (∀ a, ¬ entry_lt a a) ∧
  (∀ a b c, entry_lt a b → entry_lt b c → entry_lt a c) ∧
  (∀ a b, comp a b = true ↔ entry_lt a b).
Proof.
  intros Hsteps Hin. apply elem_of_reduce_phase in Hin as (Hli & -> & _).
  destruct (map_inv_steps _ _ _ _ Hsteps) as [_ _ _ (done & Hrep & _)].
  pose proof (represents_keys_ok _ _ li Hrep) as Hk.
  assert (Hs : StronglySorted entry_lt (sorted_shard (results σ) li))
    by (apply sort_sorted; by apply words_array_NoDup).
  split_and!.
  - done.
  - by apply StronglySorted_Sorted.
  - unfold sorted_shard. rewrite sort_perm. by apply words_array_NoDup.
  - intros a b [wa Ha]%elem_of_sorted_shard [wb Hb]%elem_of_sorted_shard Hne.
    apply entry_lt_total. rewrite (Hk _ _ Ha), (Hk _ _ Hb). congruence.
  - apply entry_lt_irrefl.
  - apply entry_lt_trans.
  - apply comp_spec.
Qed.

Lemma artifacts_sorted_witness :
  StronglySorted entry_lt
    [mkWordEntry "ac" [1; 2]; mkWordEntry "aa" [1]; mkWordEntry "ab" [1]] ∧
  Sorted entry_lt
    [mkWordEntry "ac" [1; 2]; mkWordEntry "aa" [1]; mkWordEntry "ab" [1]] ∧
  NoDup (word <$>
    [mkWordEntry "ac" [1; 2]; mkWordEntry "aa" [1]; mkWordEntry "ab" [1]]).
Proof.
  destruct (artifacts_sorted scenario4 2
              (run scenario4 sched2 (init scenario4 2)).1
              (run scenario4 sched2 (init scenario4 2)).2
              (λ _, true) 2 0
              [mkWordEntry "ac" [1; 2]; mkWordEntry "aa" [1];
               mkWordEntry "ab" [1]]) as (H1 & H2 & H3 & _).
  - apply run_sound.
  - vm_compute. left.
  - exact (conj H1 (conj H2 H3)).
Defined.

(** ** The content of the final index *)

Lemma index_of_lookup files f tokens w :
  open_file files f = Some (Some tokens) → w ∈ cleaned_words tokens →
  ∃ e, shard (index_of files) (letter_index w) !! w = Some e ∧
       f + 1 ∈ file_ids e.
Proof.
  intros Ho Hw. destruct (index_of_represents files) as [_ H].
  specialize (H (letter_index w) w (cleaned_words_letter_range _ _ Hw)).
  assert (Hc : (f, letter_index w, w) ∈ all_calls files)
    by (apply elem_of_all_calls; eauto).
  destruct (shard (index_of files) (letter_index w) !! w) as [e|].
  - exists e. split; [done|]. destruct H as (_ & _ & _ & Hid).
    apply Hid. eauto.
  - by apply H in Hc.
Qed.

Lemma index_of_entry files li w e :
  shard (index_of files) li !! w = Some e →
  word e = w ∧ li = letter_index w ∧ 0 ≤ li < NUM_LETTERS ∧
  StronglySorted Z.lt (file_ids e) ∧
  ∀ id, id ∈ file_ids e ↔
    ∃ f tokens, id = f + 1 ∧ open_file files f = Some (Some tokens) ∧
      w ∈ cleaned_words tokens.
Proof.
  intros He. pose proof (index_of_represents files) as Hrep.
  destruct (represents_shard _ _ _ _ _ Hrep He) as (Hli & Hw & Hs & Hid).
  assert (Hne : file_ids e ≠ []).
  { destruct Hrep as [_ H]. specialize (H li w Hli). rewrite He in H.
    by destruct H as (_ & _ & ? & _). }
  assert (Hl : li = letter_index w).
  { destruct (file_ids e) as [|id ids]; [done|].
    destruct (proj1 (Hid id)) as (f & _ & Hf); [left|].
    by apply elem_of_all_calls in Hf as (? & _ & _ & ?). }
  split_and!; [done|done|lia|lia|done|]. intros id. rewrite Hid. split.
  - intros (f & -> & (tokens & ? & ? & _)%elem_of_all_calls). eauto.
  - intros (f & tokens & -> & Ho & Hin). exists f. split; [done|].
    apply elem_of_all_calls. eauto.
Qed.

(** C3. Determinism: two runs on the same manifest and files, with any
    positive numbers of mappers and any interleavings, end the map phase
    with identical shards, so the reducers write identical artifacts (for
    the same outcome of opening the output streams; all 26 of them when
    every stream opens, whatever the positive number of reducers).  The
    artifact of a shard is its only ordered arrangement, so neither the
    traversal order of the table nor the sorting algorithm matters.  The
    ids of a written entry are exactly the 1-based manifest positions of
    the opened files that contain its word. *)
Theorem run_deterministic files N1 N2 tr1 tr2 σ1 σ2 :
  0 < N1 → 0 < N2 →
  steps files (init files N1) tr1 σ1 → map_phase_done σ1 →
  steps files (init files N2) tr2 σ2 → map_phase_done σ2 →
  results σ1 = results σ2 ∧
  (∀ sink_ok R,
     reduce_phase (results σ1) sink_ok R
     = reduce_phase (results σ2) sink_ok R) ∧
  (∀ sink_ok1 sink_ok2 R1 R2 li,
     0 < R1 → 0 < R2 →
     (∀ l, sink_ok1 l = true) → (∀ l, sink_ok2 l = true) →
     0 ≤ li < NUM_LETTERS →
     ∃ arr,
       artifact (reduce_phase (results σ1) sink_ok1 R1) li = Some arr ∧
       artifact (reduce_phase (results σ2) sink_ok2 R2) li = Some arr) ∧
  (∀ li arr,
     arr ≡ₚ words_array (shard (results σ1) li) →
     StronglySorted entry_lt arr →
     arr = sorted_shard (results σ2) li) ∧
  (∀ sink_ok R li arr e id,
     (li, arr) ∈ reduce_phase (results σ1) sink_ok R → e ∈ arr →
     (id ∈ file_ids e ↔
      ∃ f tokens, id = f + 1 ∧ open_file files f = Some (Some tokens) ∧
        word e ∈ cleaned_words tokens)).
Proof.
  intros HN1 HN2 Hs1 Hd1 Hs2 Hd2.
  destruct (map_phase_final _ _ _ _ HN1 Hs1 Hd1) as (_ & _ & E1).
  destruct (map_phase_final _ _ _ _ HN2 Hs2 Hd2) as (_ & _ & E2).
  rewrite E1, E2. split_and!.
  - done.
  - done.
  - intros sink_ok1 sink_ok2 R1 R2 li HR1 HR2 Hok1 Hok2 Hli.
    exists (sorted_shard (index_of files) li).
    by rewrite !artifact_all_ok.
  - intros li arr Hp Hs. apply sort_unique; [|done..].
    apply words_array_NoDup.
    eapply represents_keys_ok, index_of_represents.
  - intros sink_ok R li arr e id (_ & -> & _)%elem_of_reduce_phase
      [w He]%elem_of_sorted_shard.
    apply index_of_entry in He as (-> & _ & _ & _ & Hid). apply Hid.
Qed.

Lemma run_deterministic_witness :
  results (run scenario1 sched1 (init scenario1 1)).2
  = results (run scenario1 sched2 (init scenario1 2)).2.
Proof.
  refine (proj1 (run_deterministic scenario1 1 2
            (run scenario1 sched1 (init scenario1 1)).1
            (run scenario1 sched2 (init scenario1 2)).1
            (run scenario1 sched1 (init scenario1 1)).2
            (run scenario1 sched2 (init scenario1 2)).2 _ _ _ _ _ _)).
  - lia.
  - lia.
  - apply run_sound.
  - vm_compute. repeat constructor.
  - apply run_sound.
  - vm_compute. repeat constructor.
Defined.

(** C4. Completeness: a word that appears (after cleaning) in a file that
    opened lies in the letter range, a written artifact has an entry for
    it exactly when it is the artifact of the word's first letter, and
    when every output stream opens (any positive number of reducers) the
    26 artifacts are written, one per letter, and that of the word's first
    letter has an entry for the word. *)
Theorem completeness files nr_mappers tr σ f tokens w :
  0 < nr_mappers →
  steps files (init files nr_mappers) tr σ → map_phase_done σ →
  open_file files f = Some (Some tokens) → w ∈ cleaned_words tokens →
  0 ≤ letter_index w < NUM_LETTERS ∧
  (∀ sink_ok R li arr,
     (li, arr) ∈ reduce_phase (results σ) sink_ok R →
     ((∃ e, e ∈ arr ∧ word e = w) ↔ li = letter_index w)) ∧
  (∀ sink_ok R,
     0 < R → (∀ l, sink_ok l = true) →
     (reduce_phase (results σ) sink_ok R).*1 = seqZ 0 NUM_LETTERS ∧
     ∃ arr e,
       artifact (reduce_phase (results σ) sink_ok R) (letter_index w)
         = Some arr ∧
       e ∈ arr ∧ word e = w).
Proof.
  intros HN Hs Hd Ho Hw.
  destruct (map_phase_final _ _ _ _ HN Hs Hd) as (_ & _ & ->).
  pose proof (cleaned_words_letter_range _ _ Hw) as Hli.
  destruct (index_of_lookup _ _ _ _ Ho Hw) as (e & He & _).
  split_and!; [lia|lia| |].
  - intros sink_ok R li arr (_ & -> & _)%elem_of_reduce_phase. split.
    + intros (e' & [w' He']%elem_of_sorted_shard & Hw').
      apply index_of_entry in He' as (? & ? & _). congruence.
    + intros ->. exists e. split; [apply elem_of_sorted_shard; eauto|].
      by apply index_of_entry in He as (? & _).
  - intros sink_ok R HR Hok. split.
    + rewrite reduce_phase_all_ok by done.
      rewrite <- list_fmap_compose. apply list_fmap_id.
    + exists (sorted_shard (index_of files) (letter_index w)), e.
      split_and!; [by apply artifact_all_ok|apply elem_of_sorted_shard; eauto|].
      by apply index_of_entry in He as (? & _).
Qed.

Lemma completeness_witness :
  0 ≤ letter_index "dog" < NUM_LETTERS.
Proof.
  refine (proj1 (completeness scenario1 2
            (run scenario1 sched2 (init scenario1 2)).1
            (run scenario1 sched2 (init scenario1 2)).2
            0 ["Cat"; "cat"; "DOG"]%string "dog" _ _ _ _ _)).
  - lia.
  - apply run_sound.
  - vm_compute. repeat constructor.
  - reflexivity.
  - vm_compute. do 2 right. left.
Defined.

(** C5. Idempotent word/file association: when a word occurs in an opened
    file, however many times, the file's 1-based id occurs exactly once in
    the id list of every written entry for the word; when every output
    stream opens the artifact of the word's first letter has one and only
    one such entry.  Adding an id that an entry already holds leaves the
    table unchanged. *)
Theorem word_file_association files nr_mappers tr σ f tokens w :
  0 < nr_mappers →
  steps files (init files nr_mappers) tr σ → map_phase_done σ →
  open_file files f = Some (Some tokens) → w ∈ cleaned_words tokens →
  (∀ sink_ok R li arr e,
     (li, arr) ∈ reduce_phase (results σ) sink_ok R →
     e ∈ arr → word e = w →
     length (filter (λ id, id = f + 1) (file_ids e)) = 1%nat) ∧
  (∀ sink_ok R,
     0 < R → (∀ l, sink_ok l = true) →
     ∃ arr e,
       artifact (reduce_phase (results σ) sink_ok R) (letter_index w)
         = Some arr ∧
       e ∈ arr ∧ word e = w ∧
       (∀ e', e' ∈ arr → word e' = w → e' = e) ∧
       length (filter (λ id, id = f + 1) (file_ids e)) = 1%nat) ∧
  (∀ (table : gmap string WordEntry) e,
     table !! w = Some e → StronglySorted Z.lt (file_ids e) →
     f + 1 ∈ file_ids e → add_table table w f = table).
Proof.
  intros HN Hs Hd Ho Hw.
  destruct (map_phase_final _ _ _ _ HN Hs Hd) as (_ & _ & ->).
  assert (Hcount : ∀ li e,
    e ∈ sorted_shard (index_of files) li → word e = w →
    length (filter (λ id, id = f + 1) (file_ids e)) = 1%nat).
  { intros li e [w' He]%elem_of_sorted_shard Hwe.
    apply index_of_entry in He as (Hw' & _ & _ & Hsort & Hid).
    apply count_NoDup; [by apply sorted_lt_NoDup|].
    apply Hid. exists f, tokens. split_and!; [done..|]. congruence. }
  destruct (index_of_lookup _ _ _ _ Ho Hw) as (e & He & _).
  pose proof (cleaned_words_letter_range _ _ Hw) as Hli.
  split_and!.
  - intros sink_ok R li arr e' (_ & -> & _)%elem_of_reduce_phase.
    apply Hcount.
  - intros sink_ok R HR Hok.
    exists (sorted_shard (index_of files) (letter_index w)), e.
    assert (Hin : e ∈ sorted_shard (index_of files) (letter_index w))
      by (apply elem_of_sorted_shard; eauto).
    assert (Hwe : word e = w) by (by apply index_of_entry in He as (? & _)).
    split_and!; [by apply artifact_all_ok|done|done| |by eapply Hcount].
    intros e' [w' He']%elem_of_sorted_shard Hwe'.
    pose proof He' as He''. apply index_of_entry in He'' as (? & _).
    congruence.
  - intros table e'. apply add_table_present.
Qed.

Lemma word_file_association_witness :
  length (filter (λ id, id = 0 + 1) (file_ids (mkWordEntry "cat" [1; 2])))
  = 1%nat.
Proof.
  refine (proj1 (word_file_association scenario1 2
            (run scenario1 sched2 (init scenario1 2)).1
            (run scenario1 sched2 (init scenario1 2)).2
            0 ["Cat"; "cat"; "DOG"]%string "cat" _ _ _ _ _)
          (λ _, true) 3 2 [mkWordEntry "cat" [1; 2]] _ _ _ _).
  - lia.
  - apply run_sound.
  - vm_compute. repeat constructor.
  - reflexivity.
  - vm_compute. left.
  - vm_compute. do 2 right. left.
  - left.
  - reflexivity.
Defined.

(** ** Lock acquisitions of the merge *)

Lemma merge_local_events rs calls f :
  (merge_local rs calls f).2 = calls ≫= lock_pair.
Proof.
  revert rs. induction calls as [|c calls IH]; intros rs; simpl; [done|].
  by rewrite IH.
Qed.

Lemma acquisitions_lock_pairs li (calls : list (Z * string)) :
  acquisitions (ShardLock li) (calls ≫= lock_pair)
  = length (filter (λ c, c.1 = li) calls).
Proof.
  unfold acquisitions. induction calls as [|[li' w] calls IH]; [done|].
  rewrite bind_cons, filter_app, length_app, IH, (filter_cons _ (li', w)).
  unfold lock_pair. simpl. rewrite !filter_cons, filter_nil.
  rewrite (decide_False (P := Release _ = _)) by done.
  destruct (decide (li' = li)) as [->|Hne].
  - by rewrite decide_True.
  - rewrite decide_False by congruence. done.
Qed.

Lemma calls_of_letter tokens calls li :
  calls ≡ₚ bucket_calls (read_words tokens) →
  (filter (λ c, c.1 = li) calls).*2
  ≡ₚ filter (λ w, letter_index w = li) (remove_dups (cleaned_words tokens)).
Proof.
  intros Hp. apply NoDup_Permutation.
  - apply NoDup_fmap_2_strong.
    + intros [l1 w1] [l2 w2] [H1 _]%list_elem_of_filter
        [H2 _]%list_elem_of_filter. simpl in *. congruence.
    + apply NoDup_filter. rewrite Hp. apply NoDup_bucket_calls.
  - apply NoDup_filter, NoDup_remove_dups.
  - intros w. rewrite list_elem_of_fmap, list_elem_of_filter,
      elem_of_remove_dups. split.
    + intros ([l' w'] & -> & [Hl Hin]%list_elem_of_filter). simpl in *.
      rewrite Hp in Hin. apply elem_of_file_calls in Hin as [? ?].
      split; [congruence|done].
    + intros [Hl Hin]. exists (li, w). split; [done|].
      apply list_elem_of_filter. split; [done|].
      rewrite Hp. by apply elem_of_file_calls.
Qed.

(** C2, as stated, fails: a file with the two words "ab" and "ac" touches
    only the letter a, and merging it acquires the lock of shard a
    twice. *)
Lemma lock_per_letter_counterexample :
  (∀ w, w ∈ cleaned_words ["ab"; "ac"]%string → letter_index w = 0) ∧
  acquisitions (ShardLock 0)
    (merge_local (replicate (Z.to_nat NUM_LETTERS) ∅)
       (bucket_calls (read_words ["ab"; "ac"]%string)) 0).2 = 2%nat.
Proof.
  split; [|by vm_compute].
  intros w Hw. vm_compute in Hw.
  apply elem_of_cons in Hw as [->|Hw]; [done|].
  apply elem_of_cons in Hw as [->|Hw]; [done|].
  by apply elem_of_nil in Hw.
Qed.

(** C2, amended. Merging the Local Aggregate of a file, in whatever order
    the maps are traversed, acquires and releases a shard lock once per
    accumulated (letter, word) pair, each acquisition covering the update
    of that one word: the lock of shard [li] is acquired once per distinct
    cleaned word of the file that starts with letter [li]. *)
Theorem lock_per_distinct_word rs tokens f calls li :
  calls ≡ₚ bucket_calls (read_words tokens) →
  (merge_local rs calls f).2 = calls ≫= lock_pair ∧
  acquisitions (ShardLock li) (merge_local rs calls f).2
  = length (filter (λ w, letter_index w = li)
              (remove_dups (cleaned_words tokens))).
Proof.
  intros Hp. split; [apply merge_local_events|].
  rewrite merge_local_events, acquisitions_lock_pairs.
  rewrite <- (calls_of_letter tokens calls li Hp). by rewrite length_fmap.
Qed.

Lemma lock_per_distinct_word_witness :
  acquisitions (ShardLock 0)
    (merge_local (replicate (Z.to_nat NUM_LETTERS) ∅)
       (bucket_calls (read_words ["ab"; "ac"; "ab"]%string)) 0).2
  = length (filter (λ w, letter_index w = 0)
              (remove_dups (cleaned_words ["ab"; "ac"; "ab"]%string))).
Proof.
  refine (proj2 (lock_per_distinct_word _ ["ab"; "ac"; "ab"]%string 0 _ 0 _)).
  reflexivity.
Defined.

(** ** A stream that does not open *)

(** C1 fails on the code. With one reducer, the files of [scenario1] and
    an output stream for letter c that does not open, the reducer writes
    the artifacts of a and b and returns: shard d is in its range and its
    stream would open, but no artifact is written for it (nor for any later
    letter), so the line of "dog" is lost. *)
Theorem reducer_abandons_remaining_shards :
  let sink_ok := λ li : Z, negb (li =? 2) in
  reduce_phase (index_of scenario1) sink_ok 1 = [(0, []); (1, [])] ∧
  in_range 0 1 3 ∧ sink_ok 3 = true ∧
  sorted_shard (index_of scenario1) 3 = [mkWordEntry "dog" [1; 2]] ∧
  artifact (reduce_phase (index_of scenario1) sink_ok 1) 3 = None.
Proof.
  split_and!; by vm_compute.
Qed.

(** ** Termination of the map phase *)

Lemma sum_list_with_insert (g : mapper_pc → nat) ms t pc pc' :
  ms !! t = Some pc →
  (sum_list_with g (<[t := pc']> ms) + g pc = sum_list_with g ms + g pc')%nat.
Proof.
  intros Ht. rewrite <- (take_drop_middle ms t pc Ht) at 2.
  rewrite insert_take_drop by (by eapply lookup_lt_Some).
  rewrite !sum_list_with_app. simpl. lia.
Qed.

Lemma step_measure files σ e σ' :
  step files σ e σ' → (measure files σ' < measure files σ)%nat.
Proof.
  unfold measure.
  destruct 1 as [σ t Ht Hempty | σ t f q Ht Hqueue | σ t f Ht Ho
    | σ t f tokens calls Ht Ho Hcalls | σ t f li w calls Ht | σ t f Ht];
    simpl;
    match goal with
    | |- context [<[t := ?pc']> _] =>
        pose proof (sum_list_with_insert (pc_cost files) _ _ _ pc' Ht) as Hs
    end; simpl in Hs.
  - lia.
  - rewrite Hqueue. simpl. lia.
  - lia.
  - unfold file_calls in Hs. rewrite Ho in Hs. unfold tag in Hs.
    rewrite length_fmap, <- Hcalls in Hs. lia.
  - lia.
  - lia.
Qed.

(** No execution is longer than the measure of its start state. *)
Lemma steps_bounded files σ tr σ' :
  steps files σ tr σ' →
  (length tr + measure files σ' ≤ measure files σ)%nat.
Proof.
  induction 1 as [|σ tr σ' e σ'' _ IH Hstep]; simpl; [lia|].
  apply step_measure in Hstep. rewrite length_app. simpl. lia.
Qed.

Lemma steps_read_in_range files nr_mappers tr σ t f :
  steps files (init files nr_mappers) tr σ →
  mappers σ !! t = Some (PcRead f) → is_Some (open_file files f).
Proof.
  remember (init files nr_mappers) as σ0 eqn:E. intros Hsteps. revert t f.
  induction Hsteps as [|σ0 tr σ' e σ'' Hsteps IH Hstep]; subst; intros t' f'.
  - intros [[=] _]%lookup_replicate.
  - specialize (IH eq_refl).
    pose proof (inv_queue _ _ _ _ (map_inv_steps _ _ _ _ Hsteps)) as Hq.
    destruct Hstep as [σ t Ht Hempty | σ t f q Ht Hqueue | σ t f Ht Ho
      | σ t f tokens calls Ht Ho Hcalls | σ t f li w calls Ht | σ t f Ht];
      simpl; intros [[=]|H]%lookup_insert_pc; eauto.
    subst f'. rewrite Hqueue in Hq.
    assert (Hf : f ∈ seqZ 0 (Z.of_nat (length files)))
      by (rewrite <- Hq, elem_of_app, elem_of_cons; auto).
    apply elem_of_seqZ in Hf.
    destruct (lookup_lt_is_Some_2 files (Z.to_nat f)) as [r Hr]; [lia|].
    exists r. apply open_file_Some. split; [lia|done].
Qed.

(** A mapper that is not at the barrier can always make its next
    transition: no lock is held across transitions and no reachable state
    reads outside the manifest. *)
Lemma mapper_progress files nr_mappers tr σ t pc :
  steps files (init files nr_mappers) tr σ →
  mappers σ !! t = Some pc → pc ≠ PcBarrier →
  is_Some (step_thread files t σ).
Proof.
  intros Hsteps Ht Hpc. unfold step_thread. rewrite Ht.
  destruct pc as [|f|f [|[li w] calls]|]; try done.
  - by destruct (file_queue σ).
  - destruct (steps_read_in_range _ _ _ _ _ _ Hsteps Ht) as [[tokens|] ->];
      done.
Qed.

Lemma not_done_can_step files nr_mappers tr σ :
  steps files (init files nr_mappers) tr σ → ¬ map_phase_done σ →
  ∃ e σ', step files σ e σ'.
Proof.
  intros Hsteps Hd. apply not_Forall_Exists in Hd; [|apply _].
  apply Exists_exists in Hd as (pc & Hin & Hpc).
  apply list_elem_of_lookup in Hin as [t Ht].
  destruct (mapper_progress _ _ _ _ _ _ Hsteps Ht Hpc) as [[e σ'] Hst].
  apply step_thread_sound in Hst. by exists e, σ'.
Qed.

(** The map phase ends: from the start state some execution (in fact every
    execution that is continued as long as a mapper can move) brings all
    mappers to the barrier. *)
Lemma map_phase_terminates files nr_mappers :
  ∃ tr σ, steps files (init files nr_mappers) tr σ ∧ map_phase_done σ.
Proof.
  assert (H : ∀ n tr σ, (measure files σ ≤ n)%nat →
    steps files (init files nr_mappers) tr σ →
    ∃ tr' σ', steps files (init files nr_mappers) tr' σ' ∧ map_phase_done σ').
  { induction n as [|n IH]; intros tr σ Hm Hsteps;
      (destruct (decide (map_phase_done σ)) as [Hd|Hd]; [by eauto|]);
      destruct (not_done_can_step _ _ _ _ Hsteps Hd) as (e & σ' & Hst);
      pose proof (step_measure _ _ _ _ Hst) as Hlt.
    - lia.
    - apply (IH (tr ++ [e]) σ'); [lia|]. by eapply steps_snoc. }
  apply (H (measure files (init files nr_mappers)) [] (init files nr_mappers));
    [lia|constructor].
Qed.

(** * Further properties of the code *)

(** ** The tokenizer *)

Lemma isalpha_tolower_lower c : isalpha c = true → is_lower (tolower c).
Proof.
  intros H. apply isalpha_tolower_range in H. unfold is_lower, NUM_LETTERS in *.
  lia.
Qed.

Lemma is_lower_fixed c : is_lower c → isalpha c = true ∧ tolower c = c.
Proof.
  unfold is_lower, isalpha, tolower. intros [H1 H2].
  rewrite (proj2 (N.leb_le 97 _) H1), (proj2 (N.leb_le _ 122) H2).
  rewrite orb_true_r. split; [done|].
  rewrite (proj2 (N.leb_gt _ 90)) by lia. by rewrite andb_false_r.
Qed.

Lemma clean_word_chars w :
  Forall is_lower (list_ascii_of_string (clean_word w)).
Proof.
  unfold clean_word. induction w as [|c w IH]; simpl; [constructor|].
  destruct (isalpha c) eqn:Hc; simpl; [|done].
  constructor; [by apply isalpha_tolower_lower|done].
Qed.

Lemma clean_word_of_lower s :
  Forall is_lower (list_ascii_of_string s) → clean_word s = s.
Proof.
  unfold clean_word. induction s as [|c s IH]; simpl; [done|].
  intros [[Ha Hl]%is_lower_fixed Hs]%Forall_cons.
  rewrite Ha. simpl. rewrite Hl. f_equal. by apply IH.
Qed.

(** X1. The cleaned word consists of lowercase letters only, whatever
    bytes the token holds. *)
Theorem clean_word_lowercase w :
  Forall (λ c, 97 ≤ N_of_ascii c ≤ 122)%N
    (list_ascii_of_string (clean_word w)).
Proof.
  unfold clean_word. induction w as [|c w IH]; simpl; [constructor|].
  destruct (isalpha c) eqn:Hc; simpl; [|done].
  constructor; [|done]. by apply isalpha_tolower_lower.
Qed.

(** X2. Cleaning is idempotent: a cleaned word is left as it is. *)
Theorem clean_word_idempotent w :
  clean_word (clean_word w) = clean_word w.
Proof. apply clean_word_of_lower, clean_word_chars. Qed.

(** X3. Cleaning distributes over concatenation: the characters are
    treated one by one, independently of their neighbours. *)
Theorem clean_word_app s1 s2 :
  clean_word (s1 +:+ s2) = clean_word s1 +:+ clean_word s2.
Proof.
  unfold clean_word. induction s1 as [|c s1 IH]; simpl; [done|].
  destruct (isalpha c); simpl; by rewrite IH.
Qed.

(** X4. The cleaned word has one character per alphabetic character of
    the token (so it is never longer than the token), and it is empty,
    which makes the mapper discard the token, exactly when the token has
    no alphabetic character. *)
Theorem clean_word_length w :
  String.length (clean_word w)
  = length (filter (λ c, isalpha c = true) (list_ascii_of_string w)) ∧
  (String.length (clean_word w) ≤ String.length w)%nat ∧
  (clean_word w = EmptyString ↔
   Forall (λ c, isalpha c = false) (list_ascii_of_string w)).
Proof.
  unfold clean_word. induction w as [|c w (IH1 & IH2 & IH3)]; simpl.
  - split_and!; [done|lia|]. split; [constructor|done].
  - rewrite filter_cons. destruct (isalpha c) eqn:Hc; simpl.
    + split_and!; [by f_equal|lia|].
      split; [done|]. intros [? _]%Forall_cons. congruence.
    + split_and!; [done|lia|].
      rewrite IH3. split; [by constructor|by intros [_ ?]%Forall_cons].
Qed.

(** ** The Local Aggregate *)

Lemma read_word_nonempty lr raw :
  clean_word raw ≠ EmptyString →
  read_word lr raw
  = count_word lr (letter_index (clean_word raw)) (clean_word raw).
Proof.
  intros Hne. unfold read_word. rewrite bool_decide_true by done.
  by rewrite bool_decide_true by (by apply clean_word_letter_range).
Qed.

(** X5. The range check on the letter index never rejects a word: every
    token whose cleaned word is not empty is counted, in the bucket of its
    first letter. *)
Theorem range_check_never_rejects lr raw :
  clean_word raw ≠ EmptyString →
  0 ≤ letter_index (clean_word raw) < NUM_LETTERS ∧
  read_word lr raw
  = count_word lr (letter_index (clean_word raw)) (clean_word raw).
Proof.
  intros Hne. pose proof (clean_word_letter_range raw Hne) as Hr.
  split; [done|]. unfold read_word.
  rewrite bool_decide_true by done. by rewrite bool_decide_true.
Qed.

Lemma range_check_never_rejects_witness :
  read_word ∅ "Zoo!" = count_word ∅ 25 "zoo".
Proof.
  refine (proj2 (range_check_never_rejects ∅ "Zoo!" _)). by vm_compute.
Defined.

Lemma occurrences_snoc w tokens raw :
  occurrences w (tokens ++ [raw])
  = (occurrences w tokens
     + (if decide (clean_word raw = w ∧ w ≠ EmptyString) then 1 else 0))%nat.
Proof.
  unfold occurrences, cleaned_words.
  rewrite fmap_app, !filter_app, length_app. f_equal.
  rewrite list_fmap_singleton.
  rewrite (filter_cons _ (clean_word raw)), filter_nil.
  destruct (decide (clean_word raw ≠ EmptyString)) as [Hne|He].
  - rewrite filter_cons, filter_nil.
    destruct (decide (clean_word raw = w)) as [<-|Hw].
    + by rewrite decide_True.
    + rewrite decide_False; [done|]. by intros [? _].
  - rewrite filter_nil. rewrite decide_False; [done|].
    intros [Hw ?]. apply He. congruence.
Qed.

Lemma occurrences_absent w tokens :
  w ∉ cleaned_words tokens → occurrences w tokens = 0%nat.
Proof.
  unfold occurrences. generalize (cleaned_words tokens). intros l Hl.
  induction l as [|x l IH]; [done|]. apply not_elem_of_cons in Hl as [? ?].
  rewrite filter_cons, decide_False by done. by apply IH.
Qed.

Lemma occurrences_le w tokens : (occurrences w tokens ≤ length tokens)%nat.
Proof.
  unfold occurrences, cleaned_words.
  etrans; [apply length_filter|]. etrans; [apply length_filter|].
  by rewrite length_fmap.
Qed.

Lemma count_word_lookup lr li w li' b w' c :
  count_word lr li w !! li' = Some b → b !! w' = Some c →
  if decide (li = li' ∧ w = w')
  then c = default 0 (default ∅ (lr !! li) !! w) + 1
  else ∃ b0, lr !! li' = Some b0 ∧ b0 !! w' = Some c.
Proof.
  unfold count_word. intros Hb Hc.
  destruct (decide (li = li')) as [<-|Hl].
  - rewrite lookup_insert_eq in Hb. injection Hb as <-.
    destruct (decide (w = w')) as [<-|Hw].
    + rewrite lookup_insert_eq in Hc. injection Hc as <-.
      by rewrite decide_True.
    + rewrite lookup_insert_ne in Hc by done.
      rewrite decide_False by (by intros [_ ?]).
      destruct (lr !! li) as [b0|]; simpl in Hc; [eauto|].
      by rewrite lookup_empty in Hc.
  - rewrite lookup_insert_ne in Hb by done.
    rewrite decide_False by (by intros [? _]). eauto.
Qed.

(** X6. The Local Aggregate counts occurrences.  The counter is an [int]
    that is incremented once per token; for a file with fewer than [2^31]
    tokens no increment overflows (the theorem holds for every prefix of
    the token list), and then the counter of word [w] in bucket [li] is
    the number of tokens of the file whose cleaned word is [w]; it is at
    least 1, at most the number of tokens and so below [2^31], and [li] is
    the index of the first letter of [w]. *)
Theorem local_aggregate_counts tokens li b w c :
  Z.of_nat (length tokens) < 2 ^ 31 →
  read_words tokens !! li = Some b → b !! w = Some c →
  c = Z.of_nat (occurrences w tokens) ∧
  1 ≤ c ≤ Z.of_nat (length tokens) ∧
  c < 2 ^ 31 ∧
  li = letter_index w.
Proof.
  intros Hbound Hb Hc.
  assert (Hin : in_local (read_words tokens) li w) by (exists b; eauto).
  apply in_local_read_words in Hin as [_ Hli].
  assert (Hcount : c = Z.of_nat (occurrences w tokens) ∧ 1 ≤ c).
  { clear Hli Hbound. revert li b c Hb Hc.
    induction tokens as [|raw tokens IH] using rev_ind; intros li b c Hb Hc.
    { unfold read_words in Hb. simpl in Hb. by rewrite lookup_empty in Hb. }
    unfold read_words in Hb. rewrite foldl_snoc in Hb.
    fold (read_words tokens) in Hb. rewrite occurrences_snoc.
    destruct (decide (clean_word raw = EmptyString)) as [He|Hne].
    { rewrite decide_False by (intros [? ?]; congruence).
      rewrite Nat.add_0_r. unfold read_word in Hb.
      rewrite bool_decide_false in Hb by (intros ?; done). eauto. }
    rewrite read_word_nonempty in Hb by done.
    pose proof (count_word_lookup _ _ _ _ _ _ _ Hb Hc) as Hlk.
    destruct (decide (letter_index (clean_word raw) = li ∧ clean_word raw = w))
      as [[Hl Hw]|Hno].
    - rewrite decide_True by (split; congruence). subst c.
      rewrite Hl, Hw.
      destruct (read_words tokens !! li) as [b0|] eqn:Hb0; simpl.
      + destruct (b0 !! w) as [c0|] eqn:Hc0; simpl.
        * destruct (IH _ _ _ Hb0 Hc0) as [-> ?]. lia.
        * rewrite occurrences_absent; [lia|]. intros Hin.
          assert (in_local (read_words tokens) li w) as (b1 & Hb1 & [c1 Hc1])
            by (apply in_local_read_words; split; [done|congruence]).
          congruence.
      + rewrite lookup_empty. simpl. rewrite occurrences_absent; [lia|].
        intros Hin.
        assert (in_local (read_words tokens) li w) as (b1 & Hb1 & _)
          by (apply in_local_read_words; split; [done|congruence]).
        congruence.
    - destruct Hlk as (b0 & Hb0 & Hc0).
      destruct (decide (clean_word raw = w ∧ w ≠ EmptyString)) as [[Hw _]|_];
        [|rewrite Nat.add_0_r; eauto].
      exfalso. apply Hno. split; [|done]. subst w.
      assert (in_local (read_words tokens) li (clean_word raw)) as Hin
        by (exists b0; eauto).
      by apply in_local_read_words in Hin as [_ ->]. }
  destruct Hcount as [-> ?]. pose proof (occurrences_le w tokens).
  split_and!; [done|done|lia|lia|done].
Qed.

Lemma local_aggregate_counts_witness :
  2 = Z.of_nat (occurrences "cat" ["Cat"; "cat"; "DOG"]) ∧
  1 ≤ 2 ≤ Z.of_nat (length ["Cat"; "cat"; "DOG"]%string) ∧
  2 < 2 ^ 31 ∧
  2 = letter_index "cat".
Proof.
  apply (local_aggregate_counts ["Cat"; "cat"; "DOG"] 2 {["cat"%string := 2]}).
  - simpl. lia.
  - by vm_compute.
  - by vm_compute.
Defined.

(** ** [add_table] as an operation on a table *)

Lemma insert_id_comm l a b :
  StronglySorted Z.lt l →
  insert_id (insert_id l a) b = insert_id (insert_id l b) a.
Proof.
  intros Hl. apply sorted_lt_unique.
  - by do 2 apply insert_id_sorted.
  - by do 2 apply insert_id_sorted.
  - intros x. rewrite !elem_of_insert_id. tauto.
Qed.

Lemma insert_id_singleton a b : insert_id [a] b = insert_id [b] a.
Proof.
  apply sorted_lt_unique.
  - apply insert_id_sorted. repeat constructor.
  - apply insert_id_sorted. repeat constructor.
  - intros x. rewrite !elem_of_insert_id, !list_elem_of_singleton. tauto.
Qed.

(** X7. [add_table] never removes anything: after the call the word has an
    entry that holds the new id and every id it held before, and nothing
    but those; the entries of all other words are untouched, and the keys
    of the table are the old keys plus the word. *)
Theorem add_table_grows (table : gmap string WordEntry) w f :
  (∀ w', w' ≠ w → add_table table w f !! w' = table !! w') ∧
  (∃ e, add_table table w f !! w = Some e ∧
        f + 1 ∈ file_ids e ∧
        (∀ e0, table !! w = Some e0 →
           word e = word e0 ∧ ∀ id, id ∈ file_ids e0 → id ∈ file_ids e) ∧
        (∀ id, id ∈ file_ids e →
           id = f + 1 ∨ ∃ e0, table !! w = Some e0 ∧ id ∈ file_ids e0)) ∧
  dom (add_table table w f) = {[w]} ∪ dom table.
Proof.
  split_and!.
  - intros w' Hne. rewrite add_table_lookup. by rewrite decide_False.
  - eexists. rewrite add_table_lookup, decide_True by done.
    split; [done|]. destruct (table !! w) as [e0|]; simpl.
    + split_and!.
      * apply elem_of_insert_id. auto.
      * intros e1 [= <-]. split; [done|]. intros id Hid.
        apply elem_of_insert_id. auto.
      * intros id [->|Hid]%elem_of_insert_id; eauto.
    + split_and!; [by left|done|].
      intros id ->%list_elem_of_singleton. auto.
  - apply set_eq. intros w'. rewrite elem_of_union, elem_of_singleton.
    rewrite !elem_of_dom, add_table_lookup.
    destruct (decide (w = w')) as [->|Hne].
    + split; [auto|]. intros _. eauto.
    + split; [auto|]. intros [?|?]; [congruence|done].
Qed.

Lemma add_table_shard_sorted rs li w f :
  Forall ids_sorted rs → Forall ids_sorted (add_table_shard rs li w f).1.
Proof.
  intros H. simpl. unfold update_shard. case_bool_decide; [|done].
  apply Forall_alter; [done|]. intros tb _. apply add_table_ids_sorted.
Qed.

Lemma add_table_grows_witness :
  add_table {["cat"%string := mkWordEntry "cat" [2]]} "dog" 0 !! "cat"%string
  = Some (mkWordEntry "cat" [2]).
Proof.
  destruct (add_table_grows {["cat"%string := mkWordEntry "cat" [2]]} "dog" 0)
    as (H & _).
  rewrite (H "cat"%string); [reflexivity|discriminate].
Defined.

(** X8. [add_table] calls commute: on a table whose id lists are strictly
    increasing the result of two calls does not depend on which of two
    mappers gets the shard lock first; and merging the (letter, word)
    pairs of a file gives the same shards in whatever order the maps are
    traversed. *)
Theorem add_table_commutes :
  (∀ (table : gmap string WordEntry) w1 f1 w2 f2,
     ids_sorted table →
     add_table (add_table table w1 f1) w2 f2
     = add_table (add_table table w2 f2) w1 f1) ∧
  (∀ rs calls calls' f,
     Forall ids_sorted rs → calls ≡ₚ calls' →
     (merge_local rs calls f).1 = (merge_local rs calls' f).1).
Proof.
  assert (Hcomm : ∀ (table : gmap string WordEntry) w1 f1 w2 f2,
    ids_sorted table →
    add_table (add_table table w1 f1) w2 f2
    = add_table (add_table table w2 f2) w1 f1).
  { intros table w1 f1 w2 f2 Hs. apply map_eq. intros w.
    rewrite !add_table_lookup.
    destruct (decide (w1 = w2)) as [->|Hne].
    - destruct (decide (w2 = w)) as [->|Hw]; [|done].
      rewrite !decide_True by done. f_equal.
      destruct (table !! w) as [e|] eqn:E; simpl.
      + f_equal. apply insert_id_comm. by eapply Hs.
      + f_equal. apply (insert_id_singleton (f1 + 1) (f2 + 1)).
    - repeat case_decide; subst; try done; congruence. }
  split; [exact Hcomm|].
  intros rs calls calls' f Hrs Hp. revert rs Hrs.
  induction Hp as [|c calls calls' _ IH|c1 c2 calls|calls1 calls2 calls3 _ IH1 _ IH2];
    intros rs Hrs.
  - done.
  - simpl. apply IH. by apply add_table_shard_sorted.
  - simpl. f_equal. f_equal. unfold update_shard.
    repeat case_bool_decide; try done.
    apply list_eq. intros k. rewrite !list_lookup_alter.
    repeat case_decide; try done; try lia.
    replace (Z.to_nat c1.1) with k by lia.
    replace (Z.to_nat c2.1) with k by lia.
    destruct (rs !! k) as [tb|] eqn:Ek; simpl; [|done]. f_equal.
    apply Hcomm. eapply Forall_forall in Hrs; [done|].
    by eapply list_elem_of_lookup_2.
  - rewrite IH1 by done. by apply IH2.
Qed.

Lemma add_table_commutes_witness :
  (merge_local (replicate 26 ∅) [(2, "cat"); (3, "dog")]%string 0).1
  = (merge_local (replicate 26 ∅) [(3, "dog"); (2, "cat")]%string 0).1.
Proof.
  apply (proj2 add_table_commutes).
  - apply Forall_replicate, ids_sorted_empty.
  - apply Permutation_swap.
Defined.

(** X9. [add_table] is idempotent: repeating a call for the same word and
    file changes nothing. *)
Theorem add_table_idempotent (table : gmap string WordEntry) w f :
  ids_sorted table →
  add_table (add_table table w f) w f = add_table table w f.
Proof.
  intros Hs.
  pose proof (add_table_ids_sorted table w f Hs) as Hs'.
  destruct (add_table table w f !! w) as [e|] eqn:E.
  - eapply add_table_present; [done|by eapply Hs'|].
    rewrite add_table_lookup, decide_True in E by done.
    injection E as <-. destruct (table !! w) as [e0|]; simpl.
    + apply elem_of_insert_id. auto.
    + by left.
  - rewrite add_table_lookup, decide_True in E by done. done.
Qed.

Lemma add_table_idempotent_witness :
  add_table (add_table ∅ "cat" 1) "cat" 1 = add_table ∅ "cat" 1.
Proof. apply add_table_idempotent, ids_sorted_empty. Defined.

(** ** The map phase *)

Lemma pc_cost_replicate files n :
  sum_list_with (pc_cost files) (replicate n PcDequeue) = n.
Proof. induction n as [|n IH]; simpl; [done|]. by rewrite IH. Qed.

(** X10. The map phase cannot hang and cannot run forever: in every
    reachable state a mapper that is not at the barrier can make its next
    transition, and no execution is longer than four transitions per
    file, one per [add_table] call and one per mapper. *)
Theorem map_phase_always_ends files nr_mappers tr σ :
  steps files (init files nr_mappers) tr σ →
  (∀ t pc, mappers σ !! t = Some pc → pc ≠ PcBarrier →
     ∃ e σ', step_thread files t σ = Some (e, σ') ∧ step files σ e σ') ∧
  (¬ map_phase_done σ → ∃ e σ', step files σ e σ') ∧
  (length tr ≤
     sum_list_with (λ f, length (file_calls files f) + 4)
       (seqZ 0 (Z.of_nat (length files)))
     + Z.to_nat nr_mappers)%nat.
Proof.
  intros Hsteps. split_and!.
  - intros t pc Ht Hpc.
    destruct (mapper_progress _ _ _ _ _ _ Hsteps Ht Hpc) as [[e σ'] Hst].
    exists e, σ'. split; [done|]. by apply (step_thread_sound _ t).
  - by apply (not_done_can_step _ nr_mappers tr).
  - pose proof (steps_bounded _ _ _ _ Hsteps) as Hb.
    unfold measure at 2 in Hb. unfold init in Hb. cbn [file_queue mappers] in Hb.
    rewrite pc_cost_replicate in Hb. lia.
Qed.

Lemma map_phase_always_ends_witness :
  (length (run scenario1 sched2 (init scenario1 2)).1 ≤
     sum_list_with (λ f, length (file_calls scenario1 f) + 4)
       (seqZ 0 (Z.of_nat (length scenario1)))
     + Z.to_nat 2)%nat.
Proof.
  refine (proj2 (proj2 (map_phase_always_ends scenario1 2
            (run scenario1 sched2 (init scenario1 2)).1
            (run scenario1 sched2 (init scenario1 2)).2 _))).
  apply run_sound.
Defined.

(** X11. The barrier is final: a mapper reaches it only when the queue is
    empty, and from then on the mapper never moves and the queue stays
    empty, whatever the other mappers do. *)
Theorem barrier_is_final files nr_mappers tr σ t :
  steps files (init files nr_mappers) tr σ →
  mappers σ !! t = Some PcBarrier →
  file_queue σ = [] ∧
  step_thread files t σ = None ∧
  ∀ e σ', step files σ e σ' →
    mappers σ' !! t = Some PcBarrier ∧ file_queue σ' = [].
Proof.
  intros Hsteps Ht.
  pose proof (inv_barrier _ _ _ _ (map_inv_steps _ _ _ _ Hsteps)) as Hb.
  assert (Hq : file_queue σ = [])
    by (apply Hb; by eapply list_elem_of_lookup_2).
  split_and!; [done|unfold step_thread; by rewrite Ht|].
  intros e σ' Hstep. split.
  - destruct Hstep as [σ t' Ht' _ | σ t' f q Ht' _ | σ t' f Ht' _
      | σ t' f tokens calls Ht' _ _ | σ t' f li w calls Ht' | σ t' f Ht'];
      simpl; (rewrite list_lookup_insert_ne; [done|]); intros ->; congruence.
  - apply step_queue in Hstep.
    destruct e as [t' [f|]| | |]; congruence.
Qed.

Lemma barrier_is_final_witness :
  file_queue (run scenario1 sched2 (init scenario1 2)).2 = [].
Proof.
  refine (proj1 (barrier_is_final scenario1 2
            (run scenario1 sched2 (init scenario1 2)).1
            (run scenario1 sched2 (init scenario1 2)).2 0 _ _)).
  - apply run_sound.
  - by vm_compute.
Defined.

Lemma bind_insert_perm {A} (g : mapper_pc → list A) ms t pc :
  ms !! t = Some pc →
  ∃ rest, ms ≫= g ≡ₚ g pc ++ rest ∧
    ∀ pc', <[t := pc']> ms ≫= g ≡ₚ g pc' ++ rest.
Proof.
  intros Ht. exists ((take t ms ≫= g) ++ (drop (S t) ms ≫= g)). split.
  - rewrite <- (take_drop_middle ms t pc Ht) at 1.
    rewrite bind_app, bind_cons. solve_Permutation.
  - intros pc'. rewrite insert_take_drop by (by eapply lookup_lt_Some).
    rewrite bind_app, bind_cons. solve_Permutation.
Qed.

Lemma held_inv files nr_mappers tr σ :
  steps files (init files nr_mappers) tr σ →
  NoDup (mappers σ ≫= held) ∧
  ∀ f, f ∈ mappers σ ≫= held → f ∈ dequeued tr.
Proof.
  remember (init files nr_mappers) as σ0 eqn:E.
  induction 1 as [|σ0 tr σ' e σ'' Hsteps IH Hstep]; subst.
  - assert (Hnil : mappers (init files nr_mappers) ≫= held = []).
    { unfold init. cbn [mappers]. induction (Z.to_nat nr_mappers); [done|].
      by csimpl. }
    rewrite Hnil. split; [constructor|]. by intros f ?%elem_of_nil.
  - destruct (IH eq_refl) as [Hnd Hsub].
    pose proof (inv_queue _ _ _ _ (map_inv_steps _ _ _ _ Hsteps)) as Hq.
    rewrite dequeued_app.
    assert (Hkeep : ∀ t pc pc', mappers σ' !! t = Some pc →
      (∀ x, x ∈ held pc' → x ∈ held pc) → NoDup (held pc') →
      NoDup (<[t := pc']> (mappers σ') ≫= held) ∧
      ∀ f, f ∈ <[t := pc']> (mappers σ') ≫= held →
           f ∈ dequeued tr ++ dequeued [e]).
    { intros t pc pc' Ht Hincl Hnd'.
      destruct (bind_insert_perm held _ _ _ Ht) as (rest & Hrest & Hrest').
      rewrite Hrest', NoDup_app. rewrite Hrest, NoDup_app in Hnd.
      destruct Hnd as (_ & Hdis & Hndr). split.
      - split_and!; [done| |done]. intros x Hx. apply Hdis. auto.
      - intros f Hf. rewrite Hrest' in Hf.
        apply elem_of_app in Hf as [Hf|Hf]; apply elem_of_app; left;
          apply Hsub; rewrite Hrest, elem_of_app; auto. }
    destruct Hstep as [σ t Ht Hempty | σ t f q Ht Hqueue | σ t f Ht Ho
      | σ t f tokens calls Ht Ho Hcalls | σ t f li w calls Ht | σ t f Ht];
      simpl mappers.
    + apply (Hkeep t PcDequeue); [done|done|constructor].
    + destruct (bind_insert_perm held _ _ _ Ht) as (rest & Hrest & Hrest').
      rewrite Hrest'. simpl. simpl in Hrest. split.
      * apply NoDup_cons. split; [|by rewrite <- Hrest]. intros Hin.
        assert (Hf : f ∈ dequeued tr) by (apply Hsub; by rewrite Hrest).
        assert (Hnd' : NoDup (dequeued tr ++ file_queue σ))
          by (rewrite Hq; apply NoDup_seqZ).
        rewrite Hqueue in Hnd'. apply NoDup_app in Hnd' as (_ & Hdis & _).
        apply (Hdis f Hf). by left.
      * intros f' Hin. rewrite Hrest' in Hin. simpl in Hin.
        apply elem_of_cons in Hin as [->|Hin]; apply elem_of_app;
          [right; by left|].
        left. apply Hsub. by rewrite Hrest.
    + apply (Hkeep t (PcRead f)); [done|by intros x ?%elem_of_nil|constructor].
    + apply (Hkeep t (PcRead f)); [done|done|]. simpl. repeat constructor.
      by intros ?%elem_of_nil.
    + apply (Hkeep t (PcMerge f ((li, w) :: calls))); [done|done|].
      simpl. repeat constructor. by intros ?%elem_of_nil.
    + apply (Hkeep t (PcMerge f [])); [done|by intros x ?%elem_of_nil|constructor].
Qed.

Lemma NoDup_bind_lookup {A B} (g : A → list B) (l : list A) i j x y a :
  NoDup (l ≫= g) → l !! i = Some x → l !! j = Some y →
  a ∈ g x → a ∈ g y → i = j.
Proof.
  revert i j. induction l as [|x0 l IH]; intros i j Hnd Hi Hj Hx Hy;
    [done|].
  rewrite bind_cons in Hnd. apply NoDup_app in Hnd as (_ & Hdis & Hnd).
  destruct i as [|i], j as [|j]; simpl in *.
  - done.
  - injection Hi as ->. exfalso. apply (Hdis a Hx).
    apply list_elem_of_bind. exists y. split; [done|].
    by eapply list_elem_of_lookup_2.
  - injection Hj as ->. exfalso. apply (Hdis a Hy).
    apply list_elem_of_bind. exists x. split; [done|].
    by eapply list_elem_of_lookup_2.
  - f_equal. by apply IH.
Qed.

(** X12. No file is processed twice at once: in every reachable state two
    different mappers never hold the same file, and a file that a mapper
    holds is a file of the manifest that was dequeued. *)
Theorem file_held_by_one_mapper files nr_mappers tr σ t1 t2 pc1 pc2 f :
  steps files (init files nr_mappers) tr σ →
  mappers σ !! t1 = Some pc1 → mappers σ !! t2 = Some pc2 →
  f ∈ held pc1 → f ∈ held pc2 →
  t1 = t2 ∧ f ∈ dequeued tr ∧ 0 ≤ f < Z.of_nat (length files).
Proof.
  intros Hsteps H1 H2 Hf1 Hf2.
  destruct (held_inv _ _ _ _ Hsteps) as [Hnd Hsub].
  assert (Hd : f ∈ dequeued tr).
  { apply Hsub, list_elem_of_bind. exists pc1. split; [done|].
    by eapply list_elem_of_lookup_2. }
  split_and!; [by eapply (NoDup_bind_lookup held)|done| |].
  all: pose proof (inv_queue _ _ _ _ (map_inv_steps _ _ _ _ Hsteps)) as Hq;
    assert (Hin : f ∈ seqZ 0 (Z.of_nat (length files)))
      by (rewrite <- Hq, elem_of_app; auto);
    apply elem_of_seqZ in Hin; lia.
Qed.

Lemma file_held_by_one_mapper_witness :
  1%nat = 1%nat ∧
  1 ∈ dequeued (run scenario1 [0; 1; 1]%nat (init scenario1 2)).1 ∧
  0 ≤ 1 < Z.of_nat (length scenario1).
Proof.
  apply (file_held_by_one_mapper scenario1 2
           (run scenario1 [0; 1; 1]%nat (init scenario1 2)).1
           (run scenario1 [0; 1; 1]%nat (init scenario1 2)).2
           1 1 (PcMerge 1 [(3, "dog"); (2, "cat")]%string)
           (PcMerge 1 [(3, "dog"); (2, "cat")]%string) 1).
  - apply run_sound.
  - by vm_compute.
  - by vm_compute.
  - by left.
  - by left.
Defined.

(** X13. The shards only grow: along any execution, from any state, an
    entry that is in a shard stays there with the same word and keeps all
    its ids. *)
Theorem shards_only_grow files σ tr σ' li w e :
  steps files σ tr σ' →
  shard (results σ) li !! w = Some e →
  ∃ e', shard (results σ') li !! w = Some e' ∧ word e' = word e ∧
        ∀ id, id ∈ file_ids e → id ∈ file_ids e'.
Proof.
  induction 1 as [|σ tr σ' ev σ'' _ IH Hstep]; intros He; [by eauto|].
  destruct (IH He) as (e' & He' & Hw & Hids). clear IH He.
  destruct Hstep as [σ' t Ht Hempty | σ' t f q Ht Hqueue | σ' t f Ht Ho
    | σ' t f tokens calls Ht Ho Hcalls | σ' t f li' w' calls Ht | σ' t f Ht];
    simpl; try by eauto.
  rewrite shard_update_shard_gen. case_decide as Hli; [|by eauto].
  rewrite add_table_lookup. case_decide as Hw'; [subst w'|by eauto].
  rewrite He'. simpl. eexists. split; [done|]. split; [done|].
  intros id Hid. apply elem_of_insert_id. auto.
Qed.

Lemma shards_only_grow_witness :
  ∃ e', shard (results
            (run scenario1 [0; 0; 0; 0; 0; 0; 0; 0]%nat
               (run scenario1 [0; 0; 0; 0]%nat (init scenario1 1)).2).2) 2
          !! "cat"%string = Some e' ∧
        word e' = "cat"%string ∧ ∀ id, id ∈ [1] → id ∈ file_ids e'.
Proof.
  apply (shards_only_grow scenario1
           (run scenario1 [0; 0; 0; 0]%nat (init scenario1 1)).2
           (run scenario1 [0; 0; 0; 0; 0; 0; 0; 0]%nat
              (run scenario1 [0; 0; 0; 0]%nat (init scenario1 1)).2).1
           _ 2 "cat" (mkWordEntry "cat" [1])).
  - apply run_sound.
  - by vm_compute.
Defined.

(** X14. The ids of an entry are file positions: in every reachable state
    an entry holds at least one id, and each id is the 1-based position of
    a file of the manifest that has been dequeued, that opened and that
    contains the word. *)
Theorem ids_are_file_positions files nr_mappers tr σ li w e :
  steps files (init files nr_mappers) tr σ →
  shard (results σ) li !! w = Some e →
  file_ids e ≠ [] ∧
  ∀ id, id ∈ file_ids e →
    1 ≤ id ≤ Z.of_nat (length files) ∧
    id - 1 ∈ dequeued tr ∧
    ∃ tokens, open_file files (id - 1) = Some (Some tokens) ∧
      w ∈ cleaned_words tokens.
Proof.
  intros Hsteps He.
  destruct (map_inv_steps _ _ _ _ Hsteps) as [_ _ _ (done & Hrep & Hperm)].
  destruct (represents_shard _ _ _ _ _ Hrep He) as (Hli & _ & _ & Hid).
  split.
  - destruct Hrep as [_ H]. specialize (H li w Hli). rewrite He in H.
    by destruct H as (_ & _ & ? & _).
  - intros id [f [-> Hf]]%Hid.
    assert (Hin : (f, li, w) ∈ dequeued tr ≫= file_calls files)
      by (rewrite <- Hperm, elem_of_app; by left).
    apply list_elem_of_bind in Hin as (f' & Hin & Hd).
    apply elem_of_file_calls_tagged in Hin as (-> & tokens & Ho & Hw & _).
    replace (f' + 1 - 1) with f' by lia.
    pose proof Ho as [Hr _]%open_file_Some.
    split_and!; [lia|lia|done|by exists tokens].
Qed.

Lemma ids_are_file_positions_witness :
  file_ids (mkWordEntry "cat" [1; 2]) ≠ [] ∧
  ∀ id, id ∈ file_ids (mkWordEntry "cat" [1; 2]) →
    1 ≤ id ≤ Z.of_nat (length scenario1) ∧
    id - 1 ∈ dequeued (run scenario1 sched2 (init scenario1 2)).1 ∧
    ∃ tokens, open_file scenario1 (id - 1) = Some (Some tokens) ∧
      "cat"%string ∈ cleaned_words tokens.
Proof.
  apply (ids_are_file_positions scenario1 2 _
           (run scenario1 sched2 (init scenario1 2)).2 2).
  - apply run_sound.
  - by vm_compute.
Defined.

(** ** The final index *)

Lemma represents_ext rs ops ops' :
  (∀ c, c ∈ ops ↔ c ∈ ops') → represents rs ops → represents rs ops'.
Proof.
  intros Hiff [Hlen H]. split; [done|]. intros li w Hli.
  specialize (H li w Hli). destruct (shard rs li !! w) as [e|].
  - destruct H as (?&?&?&Hid). split_and!; [done..|].
    intros id. rewrite Hid. by setoid_rewrite Hiff.
  - intros f. rewrite <- Hiff. apply H.
Qed.

Lemma open_file_middle_eq (pre post : manifest) x :
  open_file (pre ++ x :: post) (Z.of_nat (length pre)) = Some x.
Proof.
  unfold open_file. rewrite bool_decide_true by lia.
  by rewrite Nat2Z.id, list_lookup_middle.
Qed.

Lemma open_file_middle_ne (pre post : manifest) x y f :
  f ≠ Z.of_nat (length pre) →
  open_file (pre ++ x :: post) f = open_file (pre ++ y :: post) f.
Proof.
  intros Hne. unfold open_file. case_bool_decide; [|done].
  destruct (decide (Z.to_nat f < length pre)%nat).
  - by rewrite !lookup_app_l.
  - rewrite !lookup_app_r by lia.
    destruct (Z.to_nat f - length pre)%nat eqn:E; [lia|done].
Qed.

Lemma elem_of_all_words files w :
  w ∈ all_words files ↔
  ∃ f tokens, open_file files f = Some (Some tokens) ∧
    w ∈ cleaned_words tokens.
Proof.
  unfold all_words. rewrite list_elem_of_bind. split.
  - intros ([tokens|] & Hw & Hr); simpl in Hw; [|by apply elem_of_nil in Hw].
    apply list_elem_of_lookup in Hr as [i Hi].
    exists (Z.of_nat i), tokens. split; [|done].
    apply open_file_Some. rewrite Nat2Z.id. split; [|done].
    apply lookup_lt_Some in Hi. lia.
  - intros (f & tokens & [_ Hf]%open_file_Some & Hw).
    exists (Some tokens). split; [done|]. by eapply list_elem_of_lookup_2.
Qed.

Lemma index_of_entry_nonempty files li w e :
  shard (index_of files) li !! w = Some e → file_ids e ≠ [].
Proof.
  intros He. pose proof (index_of_entry _ _ _ _ He) as (_ & _ & Hli & _).
  destruct (index_of_represents files) as [_ H].
  specialize (H li w Hli). rewrite He in H. by destruct H as (_ & _ & ? & _).
Qed.

(** X15. A file that cannot be opened counts as a file without words: the
    run ends with the same shards as a run in which that file opens and
    has no alphabetic character in any token.  The files listed after it
    keep their ids. *)
Theorem unreadable_file_like_empty pre post tokens N1 N2 tr1 tr2 σ1 σ2 :
  cleaned_words tokens = [] →
  0 < N1 → 0 < N2 →
  steps (pre ++ None :: post) (init (pre ++ None :: post) N1) tr1 σ1 →
  map_phase_done σ1 →
  steps (pre ++ Some tokens :: post)
    (init (pre ++ Some tokens :: post) N2) tr2 σ2 →
  map_phase_done σ2 →
  results σ1 = results σ2.
Proof.
  intros Hempty HN1 HN2 Hs1 Hd1 Hs2 Hd2.
  destruct (map_phase_final _ _ _ _ HN1 Hs1 Hd1) as (_ & _ & ->).
  destruct (map_phase_final _ _ _ _ HN2 Hs2 Hd2) as (_ & _ & ->).
  eapply represents_unique; [apply index_of_represents|].
  eapply represents_ext; [|apply index_of_represents].
  intros [[f li] w]. rewrite !elem_of_all_calls.
  destruct (decide (f = Z.of_nat (length pre))) as [->|Hne].
  - rewrite !open_file_middle_eq. split.
    + intros (tokens' & [= <-] & Hw & _). rewrite Hempty in Hw.
      by apply elem_of_nil in Hw.
    + by intros (tokens' & [=] & _).
  - by rewrite (open_file_middle_ne pre post (Some tokens) None f Hne).
Qed.

Lemma unreadable_file_like_empty_witness :
  results (run [None; Some ["x"]]%string sched1
             (init [None; Some ["x"]]%string 1)).2
  = results (run [Some ["42"; "--"]; Some ["x"]]%string sched1
               (init [Some ["42"; "--"]; Some ["x"]]%string 1)).2.
Proof.
  apply (unreadable_file_like_empty [] [Some ["x"]]%string
           ["42"; "--"]%string 1 1
           (run [None; Some ["x"]]%string sched1
              (init [None; Some ["x"]]%string 1)).1
           (run [Some ["42"; "--"]; Some ["x"]]%string sched1
              (init [Some ["42"; "--"]; Some ["x"]]%string 1)).1).
  - reflexivity.
  - lia.
  - lia.
  - apply run_sound.
  - vm_compute. repeat constructor.
  - apply run_sound.
  - vm_compute. repeat constructor.
Defined.

(** X16. The artifacts hold the words of the files and nothing else: after
    a complete map phase, the words of a written artifact are, without
    repetition, exactly the distinct cleaned words of the opened files
    that start with the artifact's letter; so the artifact has one line
    per such word. *)
Theorem artifact_words files nr_mappers tr σ sink_ok R li arr :
  0 < nr_mappers →
  steps files (init files nr_mappers) tr σ → map_phase_done σ →
  (li, arr) ∈ reduce_phase (results σ) sink_ok R →
  word <$> arr
    ≡ₚ filter (λ w, letter_index w = li) (remove_dups (all_words files)) ∧
  length arr
  = length (filter (λ w, letter_index w = li) (remove_dups (all_words files))).
Proof.
  intros HN Hs Hd Hin.
  destruct (map_phase_final _ _ _ _ HN Hs Hd) as (_ & _ & E).
  rewrite E in Hin. apply elem_of_reduce_phase in Hin as (Hli & -> & _).
  assert (Hp : word <$> sorted_shard (index_of files) li
    ≡ₚ filter (λ w, letter_index w = li) (remove_dups (all_words files))).
  { apply NoDup_Permutation.
    - unfold sorted_shard. rewrite sort_perm. apply words_array_NoDup.
      eapply represents_keys_ok, index_of_represents.
    - apply NoDup_filter, NoDup_remove_dups.
    - intros w. rewrite list_elem_of_fmap, list_elem_of_filter,
        elem_of_remove_dups, elem_of_all_words. split.
      + intros (e & -> & [w' He]%elem_of_sorted_shard).
        pose proof (index_of_entry_nonempty _ _ _ _ He) as Hne.
        apply index_of_entry in He as (Hw & Hl & _ & Hsorted & Hid).
        destruct (file_ids e) as [|id ids]; [done|].
        destruct (proj1 (Hid id)) as (f & tokens & _ & Ho & Hw'); [left|].
        subst w'. split; [done|eauto].
      + intros [Hl (f & tokens & Ho & Hw)].
        destruct (index_of_lookup _ _ _ _ Ho Hw) as (e & He & _).
        exists e. subst li. split.
        * by apply index_of_entry in He as (? & _).
        * apply elem_of_sorted_shard. eauto. }
  split; [done|]. by rewrite <- Hp, length_fmap.
Qed.

Lemma artifact_words_witness :
  length [mkWordEntry "cat" [1; 2]]
  = length (filter (λ w, letter_index w = 2)
              (remove_dups (all_words scenario1))).
Proof.
  refine (proj2 (artifact_words scenario1 2
            (run scenario1 sched2 (init scenario1 2)).1
            (run scenario1 sched2 (init scenario1 2)).2
            (λ _, true) 3 2 [mkWordEntry "cat" [1; 2]] _ _ _ _)).
  - lia.
  - apply run_sound.
  - vm_compute. repeat constructor.
  - vm_compute. do 2 right. left.
Defined.

Lemma seqZ_sorted m (n : nat) : StronglySorted Z.lt (seqZ m (Z.of_nat n)).
Proof.
  induction n as [|n IH]; [constructor|].
  rewrite seqZ_S. apply StronglySorted_app_2; [|done|repeat constructor].
  intros x y Hx%elem_of_seqZ ->%list_elem_of_singleton. lia.
Qed.

Lemma filter_sorted (P : Z → Prop) `{∀ x, Decision (P x)} l :
  StronglySorted Z.lt l → StronglySorted Z.lt (filter P l).
Proof.
  induction 1 as [|x l Hl IH Hx]; [constructor|].
  rewrite filter_cons. case_decide; [|done]. constructor; [done|].
  apply Forall_forall. intros y [_ Hy]%list_elem_of_filter.
  by eapply Forall_forall in Hx.
Qed.

Lemma file_has_word_true files w f :
  file_has_word files w f = true ↔
  ∃ tokens, open_file files f = Some (Some tokens) ∧ w ∈ cleaned_words tokens.
Proof.
  unfold file_has_word. destruct (open_file files f) as [[tokens|]|].
  - rewrite bool_decide_eq_true. split; [eauto|].
    by intros (? & [= <-] & ?).
  - split; [done|]. by intros (? & [=] & _).
  - split; [done|]. by intros (? & [=] & _).
Qed.

(** X17. The id list of a written entry is the list of the 1-based
    positions, in manifest order, of the files that open and contain the
    word. *)
Theorem id_list_in_manifest_order files nr_mappers tr σ sink_ok R li arr e :
  0 < nr_mappers →
  steps files (init files nr_mappers) tr σ → map_phase_done σ →
  (li, arr) ∈ reduce_phase (results σ) sink_ok R → e ∈ arr →
  file_ids e
  = (λ f, f + 1) <$>
      filter (λ f, file_has_word files (word e) f = true)
        (seqZ 0 (Z.of_nat (length files))).
Proof.
  intros HN Hs Hd Hin He.
  destruct (map_phase_final _ _ _ _ HN Hs Hd) as (_ & _ & E).
  rewrite E in Hin. apply elem_of_reduce_phase in Hin as (Hli & -> & _).
  apply elem_of_sorted_shard in He as [w He].
  apply index_of_entry in He as (-> & _ & _ & Hsorted & Hid).
  apply sorted_lt_unique; [done| |].
  - apply (StronglySorted_fmap _ Z.lt Z.lt); [intros; lia|].
    apply filter_sorted, seqZ_sorted.
  - intros id. rewrite Hid, list_elem_of_fmap. split.
    + intros (f & tokens & -> & Ho & Hw). exists f. split; [done|].
      apply list_elem_of_filter. split.
      * apply file_has_word_true. eauto.
      * apply elem_of_seqZ. apply open_file_Some in Ho. lia.
    + intros (f & -> & [(tokens & ? & ?)%file_has_word_true _]%list_elem_of_filter).
      eauto.
Qed.

Lemma id_list_in_manifest_order_witness :
  file_ids (mkWordEntry "cat" [1; 2])
  = (λ f, f + 1) <$>
      filter (λ f, file_has_word scenario1
                     (word (mkWordEntry "cat" [1; 2])) f = true)
        (seqZ 0 (Z.of_nat (length scenario1))).
Proof.
  apply (id_list_in_manifest_order scenario1 2
           (run scenario1 sched2 (init scenario1 2)).1
           (run scenario1 sched2 (init scenario1 2)).2
           (λ _, true) 3 2 [mkWordEntry "cat" [1; 2]]).
  - lia.
  - apply run_sound.
  - vm_compute. repeat constructor.
  - vm_compute. do 2 right. left.
  - left.
Defined.

(** X18. A letter without words still gets its artifact: when every
    output stream opens, the artifact of a letter is written with zero
    lines exactly when no opened file has a word starting with that
    letter. *)
Theorem empty_shard_empty_artifact files nr_mappers tr σ sink_ok R li :
  0 < nr_mappers →
  steps files (init files nr_mappers) tr σ → map_phase_done σ →
  0 < R → (∀ l, sink_ok l = true) → 0 ≤ li < NUM_LETTERS →
  (artifact (reduce_phase (results σ) sink_ok R) li = Some [] ↔
   ∀ w, w ∈ all_words files → letter_index w ≠ li).
Proof.
  intros HN Hs Hd HR Hok Hli.
  destruct (map_phase_final _ _ _ _ HN Hs Hd) as (_ & _ & ->).
  rewrite artifact_all_ok by done. split.
  - intros [= Hnil] w (f & tokens & Ho & Hw)%elem_of_all_words <-.
    destruct (index_of_lookup _ _ _ _ Ho Hw) as (e & He & _).
    assert (Hin : e ∈ sorted_shard (index_of files) (letter_index w))
      by (apply elem_of_sorted_shard; eauto).
    rewrite Hnil in Hin. by apply elem_of_nil in Hin.
  - intros Hno. f_equal.
    destruct (sorted_shard (index_of files) li) as [|e arr] eqn:E; [done|].
    assert (Hin : e ∈ sorted_shard (index_of files) li) by (rewrite E; left).
    apply elem_of_sorted_shard in Hin as [w He].
    pose proof (index_of_entry_nonempty _ _ _ _ He) as Hne.
    apply index_of_entry in He as (_ & Hl & _ & _ & Hid).
    destruct (file_ids e) as [|id ids]; [done|].
    destruct (proj1 (Hid id)) as (f & tokens & _ & Ho & Hw); [left|].
    exfalso. apply (Hno w); [|done]. apply elem_of_all_words. eauto.
Qed.

Lemma empty_shard_empty_artifact_witness :
  artifact (reduce_phase
              (results (run scenario1 sched2 (init scenario1 2)).2)
              (λ _, true) 3) 0 = Some [] ↔
  ∀ w, w ∈ all_words scenario1 → letter_index w ≠ 0.
Proof.
  apply (empty_shard_empty_artifact scenario1 2
           (run scenario1 sched2 (init scenario1 2)).1).
  - lia.
  - apply run_sound.
  - vm_compute. repeat constructor.
  - lia.
  - done.
  - unfold NUM_LETTERS. lia.
Defined.

(** ** The reducer *)

Lemma elem_of_reducer_loop_iff rs sink_ok s n li arr :
  (li, arr) ∈ reducer_loop rs sink_ok s n ↔
  s ≤ li < s + Z.of_nat n ∧ arr = sorted_shard rs li ∧
  ∀ k, s ≤ k ≤ li → sink_ok k = true.
Proof.
  revert s. induction n as [|n IH]; intros s; simpl.
  - rewrite elem_of_nil. split; [done|]. intros [? _]. lia.
  - destruct (sink_ok s) eqn:Hs.
    + rewrite elem_of_cons, IH. split.
      * intros [[= -> ->]|(Hr & -> & Hok)].
        -- split_and!; [lia|lia|done|]. intros k Hk.
           by replace k with s by lia.
        -- split_and!; [lia|lia|done|]. intros k Hk.
           destruct (decide (k = s)) as [->|]; [done|]. apply Hok. lia.
      * intros (Hr & -> & Hok). destruct (decide (li = s)) as [->|Hne].
        -- by left.
        -- right. split_and!; [lia|lia|done|]. intros k Hk. apply Hok. lia.
    + rewrite elem_of_nil. split; [done|]. intros (Hr & _ & Hok).
      rewrite Hok in Hs by lia. done.
Qed.

Lemma reducer_loop_ext rs sink_ok sink_ok' s n :
  (∀ k, s ≤ k < s + Z.of_nat n → sink_ok k = sink_ok' k) →
  reducer_loop rs sink_ok s n = reducer_loop rs sink_ok' s n.
Proof.
  revert s. induction n as [|n IH]; intros s Hagree; simpl; [done|].
  rewrite <- (Hagree s) by lia. destruct (sink_ok s); [|done].
  f_equal. apply IH. intros k Hk. apply Hagree. lia.
Qed.

Lemma reducer_loop_letters rs sink_ok s n :
  (reducer_loop rs sink_ok s n).*1
  = seqZ s (Z.of_nat (length (reducer_loop rs sink_ok s n))).
Proof.
  revert s. induction n as [|n IH]; intros s; simpl; [done|].
  destruct (sink_ok s); [|done]. simpl length.
  rewrite (seqZ_cons s) by lia. rewrite fmap_cons. simpl. f_equal.
  rewrite IH. f_equal; lia.
Qed.

(** X19. What a reducer writes when streams fail: the artifact of a
    letter of its range is written exactly when the stream of that letter
    and the streams of all earlier letters of the range open; the letters
    written are consecutive from the start of the range; and a reducer is
    not affected by streams outside its range, so a failure in one reducer
    loses nothing in the others. *)
Theorem reducer_output rs sink_ok i R :
  (∀ li arr,
     (li, arr) ∈ reducer rs sink_ok i R ↔
     start_index i R ≤ li < end_index i R ∧ arr = sorted_shard rs li ∧
     ∀ k, start_index i R ≤ k ≤ li → sink_ok k = true) ∧
  (reducer rs sink_ok i R).*1
  = seqZ (start_index i R) (Z.of_nat (length (reducer rs sink_ok i R))) ∧
  (∀ sink_ok',
     (∀ k, start_index i R ≤ k < end_index i R → sink_ok k = sink_ok' k) →
     reducer rs sink_ok i R = reducer rs sink_ok' i R).
Proof.
  unfold reducer. split_and!.
  - intros li arr. rewrite elem_of_reducer_loop_iff.
    split; intros (Hr & ? & ?); (split_and!; [lia|lia|done|done]).
  - apply reducer_loop_letters.
  - intros sink_ok' Hagree. apply reducer_loop_ext. intros k Hk.
    apply Hagree. lia.
Qed.

Lemma reducer_output_witness :
  reducer (index_of scenario1) (λ li, negb (li =? 20)) 0 2
  = reducer (index_of scenario1) (λ _, true) 0 2.
Proof.
  destruct (reducer_output (index_of scenario1) (λ li, negb (li =? 20)) 0 2)
    as (_ & _ & H).
  apply H. intros k Hk.
  destruct (Z.eqb_spec k 20) as [->|_]; [|done].
  exfalso. revert Hk. vm_compute. by intros [_ [=]].
Defined.

(** X20. The shards are divided as evenly as possible: for any number of
    reducers that the [int] arithmetic can handle, the ranges of two
    reducers differ in size by at most one (each has [26/R] or [26/R + 1]
    shards), and no range is empty when there are at most 26 reducers. *)
Theorem reducer_ranges_balanced R i :
  1 ≤ R ≤ 82595524 → 0 ≤ i < R →
  NUM_LETTERS `div` R ≤ end_index i R - start_index i R
    ≤ NUM_LETTERS `div` R + 1 ∧
  (R ≤ NUM_LETTERS → start_index i R < end_index i R) ∧
  0 ≤ (i + 1) * NUM_LETTERS < 2 ^ 31.
Proof.
  intros HR Hi. rewrite end_index_start by done.
  rewrite !start_index_div by lia. unfold NUM_LETTERS.
  pose proof (Z.div_mod (i * 26) R ltac:(lia)) as H1.
  pose proof (Z.mod_pos_bound (i * 26) R ltac:(lia)) as H1'.
  pose proof (Z.div_mod 26 R ltac:(lia)) as H3.
  pose proof (Z.mod_pos_bound 26 R ltac:(lia)) as H3'.
  assert (Hsum : ((i + 1) * 26) `div` R
    = (i * 26) `div` R + 26 `div` R
      + ((i * 26) `mod` R + 26 `mod` R) `div` R).
  { replace ((i + 1) * 26)
      with (((i * 26) `div` R + 26 `div` R) * R
            + ((i * 26) `mod` R + 26 `mod` R)) by lia.
    apply Z.div_add_l. lia. }
  assert (Hcarry : 0 ≤ ((i * 26) `mod` R + 26 `mod` R) `div` R ≤ 1).
  { split; [apply Z.div_pos; lia|].
    apply Z.lt_succ_r, Z.div_lt_upper_bound; lia. }
  split_and!; [lia|lia| |lia|lia].
  intros HR26. assert (1 ≤ 26 `div` R) by (apply Z.div_le_lower_bound; lia).
  lia.
Qed.

Lemma reducer_ranges_balanced_witness :
  NUM_LETTERS `div` 4 ≤ end_index 1 4 - start_index 1 4
    ≤ NUM_LETTERS `div` 4 + 1.
Proof.
  refine (proj1 (reducer_ranges_balanced 4 1 _ _)); lia.
Defined.

(** X21. The ranges partition the shards for any number of reducers, also
    more than 26 (some ranges are then empty): every shard is in the range
    of exactly one reducer and no range leaves [[0,26)]. *)
Theorem reducer_ranges_cover_any_count R s :
  1 ≤ R ≤ 82595524 →
  (0 ≤ s < NUM_LETTERS →
   ∃ i, 0 ≤ i < R ∧ in_range i R s ∧
        ∀ j, 0 ≤ j < R → in_range j R s → j = i) ∧
  (∀ i, 0 ≤ i < R → in_range i R s → 0 ≤ s < NUM_LETTERS) ∧
  (∀ i, 0 ≤ i < R → 0 ≤ (i + 1) * NUM_LETTERS < 2 ^ 31).
Proof.
  intros HR. split_and!.
  - intros Hs. destruct (in_range_exists R s) as (i & Hi & Hin); [lia|done|].
    exists i. split_and!; [lia|lia|done|].
    intros j Hj Hjn. by apply (in_range_unique j i R s).
  - intros i. apply in_range_bounds.
  - intros i Hi. unfold NUM_LETTERS. lia.
Qed.

Lemma reducer_ranges_cover_any_count_witness :
  ∃ i, 0 ≤ i < 40 ∧ in_range i 40 7 ∧
       ∀ j, 0 ≤ j < 40 → in_range j 40 7 → j = i.
Proof.
  refine (proj1 (reducer_ranges_cover_any_count 40 7 _) _);
    unfold NUM_LETTERS; lia.
Defined.

(** X22. The comparator of the reducer is a strict weak ordering, as
    [std::sort] requires, on all entries: it is irreflexive, asymmetric
    and transitive, and two entries are tied exactly when they have the
    same number of ids and the same word. *)
Theorem comp_strict_weak_ordering :
  (∀ a, comp a a = false) ∧
  (∀ a b, comp a b = true → comp b a = false) ∧
  (∀ a b c, comp a b = true → comp b c = true → comp a c = true) ∧
  (∀ a b, comp a b = false ∧ comp b a = false ↔
          length (file_ids a) = length (file_ids b) ∧ word a = word b).
Proof.
  split_and!.
  - intros a. apply not_true_is_false. rewrite comp_spec.
    apply entry_lt_irrefl.
  - intros a b H. apply not_true_is_false. rewrite comp_spec.
    apply comp_spec in H. intros H'. by apply (entry_lt_asym a b).
  - intros a b c. rewrite !comp_spec. apply entry_lt_trans.
  - intros a b. rewrite <- !not_true_iff_false, !comp_spec. split.
    + intros [Hab Hba].
      destruct (decide (word a = word b)) as [Hw|Hw].
      * split; [|done]. unfold entry_lt in *.
        destruct (lt_eq_lt_dec (length (file_ids a)) (length (file_ids b)))
          as [[?|?]|?]; [exfalso; apply Hba; auto|done|exfalso; apply Hab; auto].
      * destruct (entry_lt_total a b Hw); tauto.
    + intros [Hl Hw]. unfold entry_lt. rewrite Hl, Hw, string_compare_refl.
      split; intros [?|[_ ?]]; (lia || done).
Qed.

(** ** The lines of an artifact *)

Lemma string_app_assoc (s1 s2 s3 : string) :
  (s1 +:+ s2) +:+ s3 = s1 +:+ (s2 +:+ s3).
Proof.
  induction s1 as [|c s1 IH]; [done|].
  change (String c ((s1 +:+ s2) +:+ s3) = String c (s1 +:+ s2 +:+ s3)).
  by f_equal.
Qed.

Lemma string_app_nil_r (s : string) : s +:+ EmptyString = s.
Proof.
  induction s as [|c s IH]; [done|].
  change (String c (s +:+ EmptyString) = String c s). by f_equal.
Qed.

Lemma string_app_nonempty (s1 s2 : string) :
  s1 ≠ EmptyString → s1 +:+ s2 ≠ EmptyString.
Proof. by destruct s1. Qed.

Lemma pretty_N_go_nonempty x s :
  s ≠ EmptyString → pretty_N_go x s ≠ EmptyString.
Proof.
  revert s. induction (N.lt_wf_0 x) as [x _ IH]; intros s Hs.
  destruct (decide (x = 0)%N) as [->|Hx]; [by rewrite pretty_N_go_0|].
  rewrite pretty_N_go_step by lia. apply IH; [|done].
  apply N.div_lt; lia.
Qed.

Lemma pretty_N_nonempty (x : N) : pretty x ≠ EmptyString.
Proof.
  unfold pretty, pretty_N. case_decide as Hx; [done|].
  rewrite pretty_N_go_step by lia. by apply pretty_N_go_nonempty.
Qed.

Lemma pretty_Z_nonempty (x : Z) : pretty x ≠ EmptyString.
Proof.
  unfold pretty, pretty_Z. destruct x as [|p|p]; [done| |done].
  apply pretty_N_nonempty.
Qed.

Lemma render_ids_from acc (ids : list Z) :
  acc ≠ EmptyString →
  foldl (λ a (b : Z), if bool_decide (a = EmptyString) then pretty b
                      else a +:+ " " +:+ pretty b) acc ids
  = acc +:+ foldr (λ (b : Z) s, " " +:+ pretty b +:+ s) EmptyString ids.
Proof.
  revert acc. induction ids as [|b ids IH]; intros acc Hacc; simpl.
  - by rewrite string_app_nil_r.
  - rewrite bool_decide_false by done.
    rewrite IH by (by apply string_app_nonempty).
    by rewrite !string_app_assoc.
Qed.

Lemma concat_cons_tail x (ids : list Z) :
  String.concat " " (x :: (pretty <$> ids))
  = x +:+ foldr (λ (b : Z) s, " " +:+ pretty b +:+ s) EmptyString ids.
Proof.
  revert x. induction ids as [|b ids IH]; intros x.
  - simpl. by rewrite string_app_nil_r.
  - rewrite fmap_cons. change (String.concat " " (x :: pretty b :: (pretty <$> ids)))
      with (x +:+ " " +:+ String.concat " " (pretty b :: (pretty <$> ids))).
    by rewrite IH.
Qed.

(** X23. The ids of a line are the decimal numbers joined by single
    spaces, with no space before the first or after the last; the line is
    the word, [":["], that list and ["]"]. *)
Theorem render_entry_format e :
  render_ids (file_ids e) = String.concat " " (pretty <$> file_ids e) ∧
  render_entry e
  = word e +:+ ":[" +:+ String.concat " " (pretty <$> file_ids e) +:+ "]".
Proof.
  assert (H : ∀ ids, render_ids ids = String.concat " " (pretty <$> ids)).
  { intros [|b ids]; [done|]. unfold render_ids.
    rewrite fmap_cons, concat_cons_tail. simpl foldl.
    apply render_ids_from, pretty_Z_nonempty. }
  split; [apply H|]. unfold render_entry. by rewrite H.
Qed.

Lemma comp_strict_weak_ordering_witness :
  comp (mkWordEntry "b" [1]) (mkWordEntry "a" [1; 2]) = false.
Proof.
  destruct comp_strict_weak_ordering as (_ & H & _).
  apply H. reflexivity.
Defined.

(** ** The threads of [main] *)

Lemma mapper_roles nr_mappers nr_reducers (n : nat) :
  Z.of_nat n ≤ nr_mappers →
  (λ i, if bool_decide (i < nr_mappers) then Mapper
        else Reducer (i - nr_mappers) nr_reducers)
    <$> seqZ 0 (Z.of_nat n)
  = replicate n Mapper.
Proof.
  induction n as [|n IH]; intros Hle; [done|].
  rewrite seqZ_S, fmap_app, IH by lia.
  rewrite list_fmap_singleton, bool_decide_true by lia.
  by rewrite replicate_S_end.
Qed.

(** X24. [main] creates [nr_mappers] mappers followed by the reducers with
    ids [0 .. nr_reducers-1], each id once, all with the same reducer
    count; the number of threads is the participant count of the barrier,
    so the barrier opens exactly when every thread has arrived. *)
Theorem main_thread_roles nr_mappers nr_reducers :
  0 ≤ nr_mappers → 0 ≤ nr_reducers →
  thread_roles nr_mappers nr_reducers
  = replicate (Z.to_nat nr_mappers) Mapper
    ++ ((λ i, Reducer i nr_reducers) <$> seqZ 0 nr_reducers) ∧
  Z.of_nat (length (thread_roles nr_mappers nr_reducers))
  = barrier_count nr_mappers nr_reducers ∧
  ∀ rs sink_ok,
    thread_roles nr_mappers nr_reducers ≫=
      (λ r, match r with
            | Mapper => []
            | Reducer i R => reducer rs sink_ok i R
            end)
    = reduce_phase rs sink_ok nr_reducers.
Proof.
  intros HN HR.
  assert (Hroles : thread_roles nr_mappers nr_reducers
    = replicate (Z.to_nat nr_mappers) Mapper
      ++ ((λ i, Reducer i nr_reducers) <$> seqZ 0 nr_reducers)).
  { unfold thread_roles. rewrite seqZ_app, fmap_app by done. f_equal.
    - replace (seqZ 0 nr_mappers)
        with (seqZ 0 (Z.of_nat (Z.to_nat nr_mappers)))
        by (by rewrite Z2Nat.id).
      apply mapper_roles. lia.
    - rewrite Z.add_0_l.
      replace (seqZ nr_mappers nr_reducers)
        with (Z.add nr_mappers <$> seqZ 0 nr_reducers)
        by (rewrite fmap_add_seqZ; f_equal; lia).
      rewrite <- list_fmap_compose. apply list_fmap_ext.
      intros k i [-> Hi]%lookup_seqZ. simpl.
      rewrite bool_decide_false by lia. f_equal. lia. }
  split_and!.
  - exact Hroles.
  - unfold thread_roles, barrier_count. rewrite length_fmap, length_seqZ. lia.
  - intros rs sink_ok. rewrite Hroles, bind_app, list_fmap_bind.
    unfold reduce_phase.
    assert (Hm : ∀ n, replicate n Mapper ≫=
      (λ r, match r with
            | Mapper => []
            | Reducer i R => reducer rs sink_ok i R
            end) = []).
    { induction n as [|n IH]; [done|]. by rewrite replicate_S, bind_cons. }
    by rewrite Hm.
Qed.

Lemma main_thread_roles_witness :
  thread_roles 2 3
  = [Mapper; Mapper; Reducer 0 3; Reducer 1 3; Reducer 2 3].
Proof.
  refine (proj1 (main_thread_roles 2 3 _ _)); lia.
Defined.
